(** * The API integration of the tea GUI ([modules/gui/src/libs/api/tauri.ts])

    A shallow embedding of the module's request signing ([getHeaders], [get]),
    of the catalog merge ([getPackages]) and of the install command
    ([installPackage], [installPackageCommand]), with the properties the
    specification states about them.

    JavaScript objects are finite maps from property names to values, the
    promise built by [installPackageCommand] is an explicit three-state cell,
    and the callbacks registered on the [Command] are run by a scheduler that
    is handed the events one at a time. *)

From stdpp Require Import gmap strings list fin_maps pretty.
From Stdlib Require Import ZArith String Ascii HexString.

Local Open Scope string_scope.
Local Open Scope Z_scope.

(** ** JavaScript values *)

(** The two members of the enum [PackageStates] (module [../types]) that this
    file uses. *)
Inductive PackageStates := AVAILABLE | INSTALLED.

(** Primitive values, and object references (compared by identity).  Numbers
    are the integers this module handles: times, process ids, exit codes. *)
Inductive val :=
| VUndefined
| VNull
| VBool (b : bool)
| VNum (n : Z)
| VStr (s : string)
| VEnum (e : PackageStates)
| VRef (l : positive).

#[global] Instance PackageStates_eq_dec : EqDecision PackageStates.
Proof. solve_decision. Defined.

#[global] Instance val_eq_dec : EqDecision val.
Proof. solve_decision. Defined.

(** [a === b] *)
Definition strict_eq (a b : val) : bool := bool_decide (a = b).

(** [ToBoolean], as used by [?:], [&&] and [||]. *)
Definition truthy (v : val) : bool :=
  match v with
  | VUndefined | VNull => false
  | VBool b => b
  | VNum n => negb (Z.eqb n 0)
  | VStr s => negb (String.eqb s "")
  | VEnum _ | VRef _ => true
  end.

(** An object literal is the map of its own properties; [o.k] of a missing
    property is [undefined]. *)
Abbreviation obj := (gmap string val).

Definition prop (o : obj) (k : string) : val := default VUndefined (o !! k).

(** A property that may be absent on the TypeScript side ([k?: string]). *)
Definition opt_str (o : option string) : val :=
  match o with Some s => VStr s | None => VUndefined end.

(** ** Strings *)

(** [hay.includes(needle)] *)
Fixpoint includes (needle hay : string) : bool :=
  String.prefix needle hay ||
  match hay with
  | EmptyString => false
  | String _ rest => includes needle rest
  end.

(** [s.split(sep)[0]]: the text before the first separator. *)
Fixpoint first_segment (sep : ascii) (s : string) : string :=
  match s with
  | EmptyString => EmptyString
  | String c rest =>
      if Ascii.eqb c sep then EmptyString else String c (first_segment sep rest)
  end.

(** [n.toString(16)] for an integer. *)
Definition toString16 (n : Z) : string :=
  match n with
  | Z0 => "0"
  | Zpos p => HexString.Raw.of_pos p ""
  | Zneg p => "-" +:+ HexString.Raw.of_pos p ""
  end.

(** [n.toString()] for an integer. *)
Definition toString10 (n : Z) : string := pretty n.

(** [Math.round(ms / 1000)]: halves go up. *)
Definition round_secs (ms : Z) : Z := (ms + 500) `div` 1000.

(** [parts.join('')], where [undefined] entries print as nothing. *)
Definition join_empty (parts : list (option string)) : string :=
  String.concat "" (map (default "") parts).

(** The body of the callback of [join]: drop one leading and then one
    trailing slash. *)
Definition drop_leading_slash (path : string) : string :=
  match path with
  | String "/" rest => rest
  | _ => path
  end.

Fixpoint drop_trailing_slash (path : string) : string :=
  match path with
  | EmptyString => EmptyString
  | String c EmptyString => if Ascii.eqb c "/" then EmptyString else path
  | String c rest => String c (drop_trailing_slash rest)
  end.

Definition join (paths : list string) : string :=
  String.concat "/" (map (fun path => drop_trailing_slash (drop_leading_slash path)) paths).

Definition apiBaseUrl : string := "https://api.tea.xyz/v1".

(** ** Request signing: [getHeaders] and [get] *)

(** Modelled from the spec: the types [Session] and [Developer] are declared
    in [$libs/stores/auth] and [@tea/ui/types], outside this file.  The
    session store "supplies current session (device id, key, user) or none";
    the fields below are the ones this file reads, each of which may be
    missing. *)
Record Developer := { developer_id : option string }.

Record Session := {
  device_id : option string;
  key : option string;
  user : option Developer
}.

(** What a call reads from its surroundings: the clock ([new Date().getTime()],
    in milliseconds), the characters of the salt that bcrypt draws for this
    call, and the session store ([getSession()]). *)
Record ambient := {
  clock : Z;
  salt_chars : string;
  current_session : option Session
}.

Record request := {
  req_uri : string;
  req_headers : obj;
  req_query : gmap string string
}.

(** The salt characters that [bcryptjs] can draw: it prints 16 random bytes
    in its own radix-64 alphabet, which gives 22 characters, and the last of
    them carries the two bits left over, so it is one of [.], [O], [e], [u]. *)
Definition radix64 : string :=
  "./ABCDEFGHIJKLMNOPQRSTUVWXYZabcdefghijklmnopqrstuvwxyz0123456789".

Fixpoint all_chars (ok : ascii -> bool) (s : string) : bool :=
  match s with
  | EmptyString => true
  | String c rest => ok c && all_chars ok rest
  end.

Definition drawn_salt (chars : string) : bool :=
  (String.length chars =? 22)%nat
  && all_chars (fun c => includes (String c "") radix64) chars
  && match String.get 21 chars with
     | Some c => includes (String c "") ".Oeu"
     | None => false
     end.

Section Signing.

(** [bcryptjs] is a dependency of the repository.  As its documentation
    has it, [hashSync(s, rounds)] with a number as second argument first
    generates a salt for that cost ([genSaltSync]) and then prints the
    salt in front of the digest of [s] under that salt.  The digest
    itself is left open. *)
Variable bcrypt_digest : string -> string -> string.

Definition genSaltSync (rounds : nat) (chars : string) : string :=
  "$2a$" +:+ (if (rounds <? 10)%nat then "0" else "") +:+ pretty rounds +:+ "$" +:+ chars.

Definition hashSync (s : string) (rounds : nat) (chars : string) : string :=
  let salt := genSaltSync rounds chars in
  salt +:+ bcrypt_digest s salt.

(** The string that is hashed. *)
Definition preHash (unixMs : Z) (path : string) (session : Session) : string :=
  let unixHexSecs := toString16 (round_secs unixMs) in
  let deviceId := first_segment "-" <$> device_id session in
  join_empty [Some unixHexSecs; key session; deviceId; Some path].

Definition getHeaders (a : ambient) (path : string) (session : Session) : obj :=
  let unixMs := clock a in
  let Authorization := hashSync (preHash unixMs path session) 10 (salt_chars a) in
  <["Authorization" := VStr Authorization]>
    (<["tea-ts" := VStr (toString10 unixMs)]>
       (<["tea-uid" := opt_str (user session ≫= developer_id)]>
          (<["tea-gui_id" := opt_str (device_id session)]> ∅))).

(** [session?.device_id && session?.user], as a condition. *)
Definition signed_session (session : option Session) : bool :=
  match session with
  | None => false
  | Some s => truthy (opt_str (device_id s)) && bool_decide (is_Some (user s))
  end.

(** The request that [get] hands to the HTTP client. *)
Definition get_request (a : ambient) (path : string)
    (query : option (gmap string string)) : request :=
  let uri := join [apiBaseUrl; path] in
  let headers :=
    match current_session a with
    | Some session =>
        if signed_session (Some session)
        then getHeaders a ("GET/" +:+ path) session
        else {[ "Authorization" := VStr "public " ]}
    | None => {[ "Authorization" := VStr "public " ]}
    end in
  {| req_uri := uri; req_headers := headers; req_query := default ∅ query |}.

(** [get<T>(path, query)]: the [data] of the client's answer. *)
Definition get {T : Type} (client : request -> T) (a : ambient) (path : string)
    (query : option (gmap string string)) : T :=
  client (get_request a path query).

(** ** The catalog: [getPackages] *)

(** [{ ...pkg, state: ..., installed_version: ... }] for one catalog entry. *)
Definition with_install_state (installedPackages : list obj) (pkg : obj) : obj :=
  let found :=
    List.find (fun p => strict_eq (prop p "full_name") (prop pkg "full_name"))
      installedPackages in
  <["installed_version" := match found with
                            | Some p => prop p "version"
                            | None => VStr ""
                            end]>
    (<["state" := VEnum (match found with Some _ => INSTALLED | None => AVAILABLE end)]> pkg).

Definition getPackages (client : request -> list obj) (a : ambient)
    (installedPackages : list obj) : list obj :=
  let packages := get client a "packages" None in
  with_install_state installedPackages <$> packages.

End Signing.

(** ** The install command: [installPackageCommand] *)

(** What an event of the [Command] carries: a line of text, the payload of
    the [close] event ([{ code, signal }], each a number or [null]), or
    nothing at all. *)
Inductive payload :=
| PUndefined
| PNull
| PLine (s : string)
| PTerminated (code signal : option Z).

#[global] Instance payload_eq_dec : EqDecision payload.
Proof. solve_decision. Defined.

Definition payload_truthy (p : payload) : bool :=
  match p with
  | PUndefined | PNull => false
  | PLine s => negb (String.eqb s "")
  | PTerminated _ _ => true
  end.

(** [line || ''] *)
Definition or_empty (line : payload) : payload :=
  if payload_truthy line then line else PLine "".

(** [typeof line === 'string'] *)
Definition is_string (line : payload) : bool :=
  match line with PLine _ => true | _ => false end.

(** [line?.code] *)
Definition code_of (line : payload) : val :=
  match line with
  | PTerminated (Some n) _ => VNum n
  | PTerminated None _ => VNull
  | _ => VUndefined
  end.

(** [line.includes('installed:')], asked of a string only. *)
Definition line_includes (needle : string) (line : payload) : bool :=
  match line with PLine s => includes needle s | _ => false end.

Record Child := { pid : Z }.

(** The calls the invocation makes, in the order it makes them. *)
Inductive action :=
| Spawn (program : string) (args : list string)
| ConsoleLog (msg : string) (arg : option payload)
| ConsoleError (arg : payload)
| Kill
| Resolve (v : Z)
| Reject (reason : payload).

#[global] Instance action_eq_dec : EqDecision action.
Proof. solve_decision. Defined.

(** The promise that [installPackageCommand] returns. *)
Inductive promise :=
| Pending
| Fulfilled (v : Z)
| Rejected (reason : payload).

#[global] Instance promise_eq_dec : EqDecision promise.
Proof. solve_decision. Defined.

(** [resolve] and [reject] act on a pending promise only. *)
Definition settle (a : action) (p : promise) : promise :=
  match p, a with
  | Pending, Resolve v => Fulfilled v
  | Pending, Reject r => Rejected r
  | _, _ => p
  end.

(** The body of [handleLineOutput] after [await child] has produced [c]. *)
Definition handleLineOutput (c : Child) (line : payload) : list action :=
  if (is_string line && line_includes "installed:" line)
     || (negb (is_string line) && strict_eq (code_of line) (VNum 0))
  then [Kill; Resolve (pid c)]
  else if negb (is_string line) && strict_eq (code_of line) (VNum 1)
  then [Reject PUndefined]
  else [].

(** The promise [child] that [spawn()] returned. *)
Inductive child_promise :=
| ChildPending
| ChildReady (c : Child)
| ChildFailed.

Inductive event :=
| Stdout (line : string)
| Stderr (line : string)
| Close (p : payload)
| Error (p : payload).

(** One invocation: the promise [child], the calls of [handleLineOutput]
    that are suspended at [await child] (oldest first, each with its
    argument), the promise handed back to the caller and the calls made so
    far. *)
Record invocation := {
  child : child_promise;
  waiting : list payload;
  outcome : promise;
  calls : list action
}.

(** Perform calls: log them and let [resolve]/[reject] act on the promise. *)
Definition perform (acts : list action) (st : invocation) : invocation :=
  {| child := child st;
     waiting := waiting st;
     outcome := foldl (fun p a => settle a p) (outcome st) acts;
     calls := calls st ++ acts |}.

(** A call of [handleLineOutput] runs up to [await child]. *)
Definition suspend (line : payload) (st : invocation) : invocation :=
  {| child := child st;
     waiting := waiting st ++ [line];
     outcome := outcome st;
     calls := calls st |}.

(** The listener of [close]. *)
Definition on_close (line : payload) (st : invocation) : invocation :=
  suspend (or_empty line) (perform [ConsoleLog "command closed!" None] st).

(** The second listener of [error]. *)
Definition on_error (line : payload) (st : invocation) : invocation :=
  suspend (or_empty line) (perform [ConsoleLog "command error!" (Some line)] st).

(** The listeners of each event, in the order they were registered; the
    first listener of [error] is [reject] itself. *)
Definition emit (e : event) (st : invocation) : invocation :=
  match e with
  | Stdout line | Stderr line => suspend (PLine line) st
  | Close line => on_close line st
  | Error line => on_error line (perform [Reject line] st)
  end.

(** What the event loop may do next: deliver an event of the command, settle
    the promise [child], or resume the oldest suspended handler. *)
Inductive turn :=
| Emit (e : event)
| SpawnDone (c : Child)
| SpawnFailed
| Resume.

Definition settle_child (r : child_promise) (st : invocation) : invocation :=
  match child st with
  | ChildPending =>
      {| child := r; waiting := waiting st; outcome := outcome st; calls := calls st |}
  | _ => st
  end.

Definition resume (st : invocation) : invocation :=
  match child st, waiting st with
  | ChildReady c, line :: rest =>
      perform (handleLineOutput c line)
        {| child := child st; waiting := rest; outcome := outcome st; calls := calls st |}
  | ChildFailed, line :: rest =>
      {| child := child st; waiting := rest; outcome := outcome st; calls := calls st |}
  | _, _ => st
  end.

Definition step (st : invocation) (t : turn) : invocation :=
  match t with
  | Emit e => emit e st
  | SpawnDone c => settle_child (ChildReady c) st
  | SpawnFailed => settle_child ChildFailed st
  | Resume => resume st
  end.

Definition run (st : invocation) (ts : list turn) : invocation := foldl step st ts.

(** The executor of the promise, up to and including [spawn()]. *)
Definition installPackageCommand (full_name : string) : invocation :=
  {| child := ChildPending;
     waiting := [];
     outcome := Pending;
     calls := [Spawn "tea-install" ["+" +:+ full_name; "true"]] |}.

(** ** [installPackage] *)

(** How a piece of code ends: with a value, with a thrown error, or not yet
    (it waits on a promise that is still pending). *)
Inductive completion (A : Type) :=
| Normal (a : A)
| Throw (e : payload)
| Suspended.
Arguments Normal {A} a.
Arguments Throw {A} e.
Arguments Suspended {A}.

(** Code that may write to the console. *)
Definition io (A : Type) : Type := completion A * list action.

Definition io_ret {A} (a : A) : io A := (Normal a, []).

Definition io_bind {A B} (m : io A) (k : A -> io B) : io B :=
  match m with
  | (Normal a, w) => let '(r, w') := k a in (r, (w ++ w')%list)
  | (Throw e, w) => (Throw e, w)
  | (Suspended, w) => (Suspended, w)
  end.

(** [await p] *)
Definition await (p : promise) : io Z :=
  match p with
  | Fulfilled v => (Normal v, [])
  | Rejected r => (Throw r, [])
  | Pending => (Suspended, [])
  end.

(** [try { body } catch (error) { handler }] *)
Definition try_catch {A} (body : io A) (handler : payload -> io A) : io A :=
  match body with
  | (Throw e, w) => let '(r, w') := handler e in (r, (w ++ w')%list)
  | other => other
  end.

Definition console_error (error : payload) : io unit :=
  (Normal tt, [ConsoleError error]).

(** [installPackage(full_name)], when the event loop takes the turns [ts]. *)
Definition installPackage (full_name : string) (ts : list turn) : io unit :=
  try_catch
    (io_bind (await (outcome (run (installPackageCommand full_name) ts)))
       (fun _ => io_ret tt))
    (fun error => console_error error).

(** ** The other fetchers *)

(** [s.replaceAll(from, to)], for [from] and [to] of one character each. *)
Fixpoint replaceAll (from to : ascii) (s : string) : string :=
  match s with
  | EmptyString => EmptyString
  | String c rest =>
      String (if Ascii.eqb c from then to else c) (replaceAll from to rest)
  end.

(** The object that the callback of [getFeaturedCourses] builds from a post. *)
Definition course_of_post (post : obj) : obj :=
  <["title" := prop post "title"]>
    (<["sub_title" := prop post "sub_title"]>
       (<["banner_image_url" := prop post "thumb_image_url"]>
          (<["link" := prop post "link"]> ∅))).

(** The request of [getPackageBottles], which calls the client itself, with
    no options (the two calls of [console.log] around it are left out). *)
Definition getPackageBottles_request (packageName : string) : request :=
  {| req_uri := join ["https://app.tea.xyz/api/bottles/"; packageName];
     req_headers := ∅;
     req_query := ∅ |}.

Section Fetchers.

Variable bcrypt_digest : string -> string -> string.

Definition getPackageReviews (client : request -> list obj) (a : ambient)
    (full_name : string) : io (list obj) :=
  let reviews :=
    get bcrypt_digest client a
      ("packages/" +:+ replaceAll "/" ":" full_name +:+ "/reviews") None in
  (Normal reviews, [ConsoleLog ("getting reviews for " +:+ full_name) None]).

Definition getFeaturedCourses (client : request -> list obj) (a : ambient) : list obj :=
  let posts := get bcrypt_digest client a "posts" (Some {[ "tag" := "featured_course" ]}) in
  course_of_post <$> posts.

(** [getAllPosts(tag?)]: the query is [tag ? { tag } : {}]. *)
Definition getAllPosts (client : request -> list obj) (a : ambient)
    (tag : option string) : list obj :=
  get bcrypt_digest client a "posts"
    (Some (match tag with
           | Some t => if truthy (VStr t) then {[ "tag" := t ]} else ∅
           | None => ∅
           end)).

Definition getCategorizedPackages (client : request -> list obj) (a : ambient) : list obj :=
  get bcrypt_digest client a "/packages/categorized" None.

Definition getDeviceAuth (client : request -> obj) (a : ambient) (deviceId : string) : obj :=
  get bcrypt_digest client a ("/auth/device/" +:+ deviceId) None.

(** [const { deviceId } = await get(...)] *)
Definition registerDevice (client : request -> obj) (a : ambient) : val :=
  prop (get bcrypt_digest client a "/auth/registerDevice" None) "deviceId".

End Fetchers.

(** ** Vocabulary of the statements *)

(** [needle] occurs in [hay]. *)
Definition contains (needle hay : string) : Prop :=
  exists before after, hay = before +:+ needle +:+ after.

(** A call of [resolve] or [reject]. *)
Definition is_settling (a : action) : bool :=
  match a with
  | Resolve _ | Reject _ => true
  | _ => false
  end.

Definition is_spawn (a : action) : bool :=
  match a with
  | Spawn _ _ => true
  | _ => false
  end.

(** The state of a promise on which the calls [l] were made, oldest first. *)
Definition settled_by (l : list action) : promise :=
  foldl (fun p a => settle a p) Pending l.

(** Every call of [resolve] comes right after a call of [kill]. *)
Definition kill_then_resolve (l : list action) : Prop :=
  forall i v, l !! i = Some (Resolve v) ->
    exists j, i = S j /\ l !! j = Some Kill.

(** The calls made in one go: one call that neither resolves nor spawns, or
    [kill] followed by [resolve], or none. *)
Inductive burst : list action -> Prop :=
| burst_none : burst []
| burst_one (a : action) :
    (forall v, a <> Resolve v) -> is_spawn a = false -> burst [a]
| burst_kill_resolve (v : Z) : burst [Kill; Resolve v].

(** What holds of an invocation however the event loop has run it. *)
Record consistent (full_name : string) (st : invocation) : Prop := {
  outcome_of_calls : outcome st = settled_by (calls st);
  resolve_after_kill : kill_then_resolve (calls st);
  spawned_once :
    filter (fun a => is_spawn a = true) (calls st)
    = [Spawn "tea-install" ["+" +:+ full_name; "true"]]
}.

(** The payloads that [||] replaces. *)
Definition no_payload (p : payload) : Prop :=
  p = PUndefined \/ p = PNull \/ p = PLine "".

(** A session fails the test of [get] when it is absent, or has no device id
    (none, or the empty string, which [&&] treats alike), or no user. *)
Definition lacks_identity (session : option Session) : Prop :=
  match session with
  | None => True
  | Some s => device_id s = None \/ device_id s = Some "" \/ user s = None
  end.

(** The first installed package with the full name of [pkg]. *)
Definition installed_as (installedPackages : list obj) (pkg p : obj) : Prop :=
  exists i, installedPackages !! i = Some p
    /\ prop p "full_name" = prop pkg "full_name"
    /\ forall j q, (j < i)%nat -> installedPackages !! j = Some q ->
         prop q "full_name" <> prop pkg "full_name".

(** What the callback of [join] makes of one path. *)
Definition trimmed (path : string) : string :=
  drop_trailing_slash (drop_leading_slash path).

(** A path with no slash at either end. *)
Definition clean_path (path : string) : Prop :=
  (forall rest, path <> "/" +:+ rest) /\ (forall front, path <> front +:+ "/").

(** A line on which [handleLineOutput] makes no call. *)
Definition quiet_line (line : payload) : Prop :=
  match line with
  | PLine s => ~ contains "installed:" s
  | PTerminated code _ => code <> Some 0 /\ code <> Some 1
  | PUndefined | PNull => True
  end.

(** A turn of the event loop that delivers no qualifying event. *)
Definition quiet_turn (t : turn) : Prop :=
  match t with
  | Emit (Stdout s) | Emit (Stderr s) => quiet_line (PLine s)
  | Emit (Close p) => quiet_line p
  | Emit (Error _) => False
  | SpawnDone _ | SpawnFailed | Resume => True
  end.

(** A turn that delivers an event. *)
Definition is_emit (t : turn) : Prop :=
  match t with
  | Emit _ => True
  | _ => False
  end.

(** Where the calls in [l] come from, for an invocation whose promise
    [child] is [ch] after the turns [ts]: [kill] is called on the spawned
    child and followed by [resolve] with its process id, and [reject] is
    called without a reason or with the payload of an [error] event. *)
Definition calls_traced (ch : child_promise) (ts : list turn) (l : list action) : Prop :=
  (forall i, l !! i = Some Kill ->
     exists c, ch = ChildReady c /\ l !! S i = Some (Resolve (pid c)))
  /\ (forall v, Resolve v ∈ l -> exists c, ch = ChildReady c /\ pid c = v)
  /\ (forall r, Reject r ∈ l -> r = PUndefined \/ Emit (Error r) ∈ ts).

Record traced (ts : list turn) (st : invocation) : Prop := {
  child_spawned : forall c, child st = ChildReady c -> SpawnDone c ∈ ts;
  calls_of_child : calls_traced (child st) ts (calls st)
}.

(** ** Facts about strings *)

Lemma prefix_app (needle hay : string) :
  String.prefix needle hay = true <-> exists after, hay = needle +:+ after.
Proof.
  revert hay. induction needle as [|a needle IH]; intros hay; simpl.
  - split; [intros _; by exists hay | by destruct hay].
  - destruct hay as [|b hay]; simpl.
    + split; [done | intros [after H]; discriminate H].
    + destruct (ascii_dec a b) as [->|Hab].
      * rewrite IH. split; intros [after H]; exists after.
        -- by rewrite H.
        -- by injection H.
      * split; [done | intros [after H]; injection H; congruence].
Qed.

Lemma includes_empty (needle : string) :
  includes needle "" = String.prefix needle "".
Proof. unfold includes. apply orb_false_r. Qed.

Lemma includes_cons (needle : string) (c : ascii) (hay : string) :
  includes needle (String c hay)
  = String.prefix needle (String c hay) || includes needle hay.
Proof. reflexivity. Qed.

Lemma includes_contains (needle hay : string) :
  includes needle hay = true <-> contains needle hay.
Proof.
  split.
  - induction hay as [|c hay IH]; intros H.
    + rewrite includes_empty in H. apply prefix_app in H as [after ->].
      by exists "", after.
    + rewrite includes_cons in H. apply orb_true_iff in H as [H|H].
      * apply prefix_app in H as [after ->]. by exists "", after.
      * destruct (IH H) as (before & after & ->).
        by exists (String c before), after.
  - intros (before & after & ->).
    induction before as [|c before IH].
    + assert (String.prefix needle (needle +:+ after) = true) as Hp
        by (apply prefix_app; eauto).
      change ("" +:+ needle +:+ after) with (needle +:+ after).
      destruct (needle +:+ after) as [|c rest].
      * by rewrite includes_empty.
      * by rewrite includes_cons, Hp.
    + change (String c before +:+ needle +:+ after)
        with (String c (before +:+ needle +:+ after)).
      rewrite includes_cons, IH. apply orb_true_r.
Qed.

Lemma append_same_length (a b c d : string) :
  String.length a = String.length b -> a +:+ c = b +:+ d -> a = b.
Proof.
  revert b. induction a as [|x a IH]; intros [|y b]; simpl; try done.
  intros Hlen H. injection Hlen as Hlen. injection H as -> H.
  f_equal. by apply IH.
Qed.

(** ** Facts about the promise *)

Lemma settled_is_final (p : promise) (l : list action) :
  p <> Pending -> foldl (fun p a => settle a p) p l = p.
Proof.
  intros Hp. induction l as [|a l IH]; simpl; [done |].
  destruct p; [done | |]; apply IH.
Qed.

Lemma settled_by_app (l acts : list action) :
  settled_by (l ++ acts) = foldl (fun p a => settle a p) (settled_by l) acts.
Proof. apply foldl_app. Qed.

(** A fulfilled promise was fulfilled by the first settling call made. *)
Lemma fulfilled_first_call (l : list action) (v : Z) :
  settled_by l = Fulfilled v ->
  exists i, l !! i = Some (Resolve v)
    /\ forall j a, (j < i)%nat -> l !! j = Some a -> is_settling a = false.
Proof.
  unfold settled_by. induction l as [|a l IH]; simpl; [done |].
  destruct a as [prog args|msg arg|arg| |w|r]; simpl.
  1-4: intros H; destruct (IH H) as (i & Hi & Hbefore); exists (S i);
       (split; [done |]); intros [|j] b Hj Hb;
       [by injection Hb as <- | apply (Hbefore j); [lia | done]].
  - rewrite settled_is_final by done. intros [= ->].
    exists 0%nat. split; [done | intros j b Hj; lia].
  - by rewrite settled_is_final.
Qed.

(** ** The invariant of an invocation *)

(** The three shapes of what [handleLineOutput] does. *)
Lemma handleLineOutput_cases (c : Child) (line : payload) :
  handleLineOutput c line = [Kill; Resolve (pid c)]
  \/ handleLineOutput c line = [Reject PUndefined]
  \/ handleLineOutput c line = [].
Proof.
  unfold handleLineOutput.
  destruct (_ || _); [by left |].
  destruct (_ && _); [right; by left | right; by right].
Qed.

Lemma burst_handleLineOutput (c : Child) (line : payload) :
  burst (handleLineOutput c line).
Proof.
  destruct (handleLineOutput_cases c line) as [-> | [-> | ->]];
    [apply burst_kill_resolve | by apply burst_one | apply burst_none].
Qed.

Lemma kill_then_resolve_burst (l acts : list action) :
  kill_then_resolve l -> burst acts -> kill_then_resolve (l ++ acts).
Proof.
  intros Hl Hacts i v Hi.
  destruct (decide (i < Datatypes.length l)%nat) as [Hlt|Hge].
  - rewrite lookup_app_l in Hi by done.
    destruct (Hl i v Hi) as (j & -> & Hj). exists j. split; [done |].
    rewrite lookup_app_l by lia. done.
  - rewrite lookup_app_r in Hi by lia.
    destruct Hacts as [|a Ha _|w].
    + done.
    + destruct (i - Datatypes.length l)%nat; [|done]. injection Hi as ->. by destruct (Ha v).
    + destruct (i - Datatypes.length l)%nat as [|[|k]] eqn:Hk; try done.
      injection Hi as ->. exists (Datatypes.length l). split; [lia |].
      rewrite lookup_app_r by lia. by rewrite Nat.sub_diag.
Qed.

Lemma no_spawn_in_burst (acts : list action) :
  burst acts -> filter (fun a => is_spawn a = true) acts = [].
Proof.
  intros [|a _ Ha|v]; [done | | done].
  rewrite filter_cons_False; [done | by rewrite Ha].
Qed.

Section Invariant.

Variable full_name : string.

Lemma consistent_start : consistent full_name (installPackageCommand full_name).
Proof.
  split; [done | | done].
  intros [|[|i]] v Hi; discriminate Hi.
Qed.

Lemma consistent_perform (acts : list action) (st : invocation) :
  burst acts -> consistent full_name st -> consistent full_name (perform acts st).
Proof.
  intros Hacts [Hout Hkill Hspawn]. split; simpl.
  - by rewrite settled_by_app, Hout.
  - by apply kill_then_resolve_burst.
  - by rewrite filter_app, Hspawn, no_spawn_in_burst.
Qed.

Lemma consistent_suspend (line : payload) (st : invocation) :
  consistent full_name st -> consistent full_name (suspend line st).
Proof. intros [Hout Hkill Hspawn]. by split. Qed.

Lemma consistent_step (st : invocation) (t : turn) :
  consistent full_name st -> consistent full_name (step st t).
Proof.
  intros Hst. destruct t as [[line|line|line|line]|c| |]; simpl.
  - by apply consistent_suspend.
  - by apply consistent_suspend.
  - apply consistent_suspend, consistent_perform; [by apply burst_one | done].
  - apply consistent_suspend, consistent_perform; [by apply burst_one |].
    apply consistent_perform; [by apply burst_one | done].
  - unfold settle_child. destruct Hst. by destruct (child st).
  - unfold settle_child. destruct Hst. by destruct (child st).
  - unfold resume. destruct (child st) as [|c|], (waiting st) as [|line rest];
      try done.
    + apply consistent_perform; [apply burst_handleLineOutput |].
      destruct Hst. by split.
    + destruct Hst. by split.
Qed.

Lemma consistent_run (ts : list turn) :
  consistent full_name (run (installPackageCommand full_name) ts).
Proof.
  induction ts as [|t ts IH] using rev_ind; [apply consistent_start |].
  unfold run. rewrite foldl_app. by apply consistent_step.
Qed.

End Invariant.

Lemma outcome_perform (acts : list action) (st : invocation) :
  outcome st <> Pending -> outcome (perform acts st) = outcome st.
Proof. intros Hp. simpl. by apply settled_is_final. Qed.

Lemma outcome_emit (e : event) (st : invocation) :
  outcome st <> Pending -> outcome (emit e st) = outcome st.
Proof.
  intros Hp. destruct e as [line|line|line|line]; simpl; [done | done | |].
  - change (outcome (perform [ConsoleLog "command closed!" None] st) = outcome st).
    by apply outcome_perform.
  - change (outcome (perform [ConsoleLog "command error!" (Some line)]
                       (perform [Reject line] st)) = outcome st).
    rewrite !outcome_perform; try done.
    by rewrite outcome_perform.
Qed.

(** Once the promise has settled, no later turn changes it. *)
Lemma outcome_step (st : invocation) (t : turn) :
  outcome st <> Pending -> outcome (step st t) = outcome st.
Proof.
  intros Hp. destruct t as [e|c| |]; simpl.
  - by apply outcome_emit.
  - unfold settle_child. by destruct (child st).
  - unfold settle_child. by destruct (child st).
  - unfold resume. destruct (child st) as [|c|], (waiting st) as [|line rest];
      try done.
    by rewrite outcome_perform.
Qed.

Lemma outcome_run (st : invocation) (ts : list turn) :
  outcome st <> Pending -> outcome (run st ts) = outcome st.
Proof.
  revert st. induction ts as [|t ts IH]; intros st Hp; [done |].
  simpl. rewrite IH; rewrite outcome_step; done.
Qed.

Lemma run_app (st : invocation) (ts ts' : list turn) :
  run st (ts ++ ts') = run (run st ts) ts'.
Proof. apply foldl_app. Qed.

(** ** Properties of the install command *)

(** C1, as the specification words it, does not hold: the promise is rejected
    without any call of [kill], both when the command closes with exit code 1
    and when it reports an error. *)
Lemma rejected_without_kill :
  let exit1 :=
    run (installPackageCommand "pantry/bar")
      [SpawnDone {| pid := 7 |}; Emit (Close (PTerminated (Some 1) None)); Resume] in
  let failed :=
    run (installPackageCommand "pantry/bar")
      [SpawnDone {| pid := 7 |}; Emit (Error (PLine "broken pipe")); Resume] in
  (outcome exit1 = Rejected PUndefined /\ Kill ∉ calls exit1)
  /\ (outcome failed = Rejected (PLine "broken pipe") /\ Kill ∉ calls failed).
Proof.
  repeat split; try reflexivity; intros H;
    repeat (apply elem_of_cons in H as [H|H]; [discriminate H |]);
    by apply elem_of_nil in H.
Qed.

(** C1, amended: whenever the invocation resolves with success, [kill] was
    called immediately before [resolve], and nothing had settled the promise
    before that; the failure outcome comes with no such guarantee. *)
Theorem kill_before_resolve (full_name : string) (ts : list turn) (v : Z) :
  outcome (run (installPackageCommand full_name) ts) = Fulfilled v ->
  exists i,
    calls (run (installPackageCommand full_name) ts) !! i = Some Kill
    /\ calls (run (installPackageCommand full_name) ts) !! S i = Some (Resolve v)
    /\ forall j a, (j <= i)%nat ->
         calls (run (installPackageCommand full_name) ts) !! j = Some a ->
         is_settling a = false.
Proof.
  intros Hv.
  destruct (consistent_run full_name ts) as [Hout Hkill _].
  rewrite Hout in Hv.
  apply fulfilled_first_call in Hv as (i & Hi & Hbefore).
  destruct (Hkill i v Hi) as (j & -> & Hj).
  exists j. repeat split; [done | done |].
  intros k a Hk. apply Hbefore. lia.
Qed.

Lemma kill_before_resolve_witness :
  let ts := [SpawnDone {| pid := 7 |}; Emit (Stdout "installed: pantry/foo"); Resume] in
  outcome (run (installPackageCommand "pantry/foo") ts) = Fulfilled 7
  /\ exists i,
       calls (run (installPackageCommand "pantry/foo") ts) !! i = Some Kill
       /\ calls (run (installPackageCommand "pantry/foo") ts) !! S i = Some (Resolve 7)
       /\ forall j a, (j <= i)%nat ->
            calls (run (installPackageCommand "pantry/foo") ts) !! j = Some a ->
            is_settling a = false.
Proof.
  split; [reflexivity |].
  apply (kill_before_resolve "pantry/foo"
           [SpawnDone {| pid := 7 |}; Emit (Stdout "installed: pantry/foo"); Resume] 7).
  reflexivity.
Defined.

(** C2: what the shared line handler does with each kind of event.  A line
    that contains "installed:" and a completion with code 0 kill the child
    and resolve with its process id; a completion with code 1 rejects; any
    other line or code makes no call, so that a pending promise stays
    pending. *)
Theorem handleLineOutput_resolution (c : Child) :
  (forall s, contains "installed:" s ->
     handleLineOutput c (PLine s) = [Kill; Resolve (pid c)])
  /\ (forall signal,
        handleLineOutput c (PTerminated (Some 0) signal) = [Kill; Resolve (pid c)])
  /\ (forall signal,
        handleLineOutput c (PTerminated (Some 1) signal) = [Reject PUndefined])
  /\ (forall s, ~ contains "installed:" s -> handleLineOutput c (PLine s) = [])
  /\ (forall code signal, code <> Some 0 -> code <> Some 1 ->
        handleLineOutput c (PTerminated code signal) = [])
  /\ settled_by [Kill; Resolve (pid c)] = Fulfilled (pid c)
  /\ settled_by [Reject PUndefined] = Rejected PUndefined
  /\ settled_by [] = Pending.
Proof.
  repeat split; try done.
  - intros s Hs. apply includes_contains in Hs.
    unfold handleLineOutput. simpl. by rewrite Hs.
  - intros s Hs. unfold handleLineOutput. simpl.
    destruct (includes "installed:" s) eqn:E; [|done].
    by apply includes_contains in E.
  - intros code signal H0 H1. unfold handleLineOutput, strict_eq. simpl.
    destruct code as [n|]; simpl; [|done].
    rewrite !bool_decide_eq_false_2; [done | |]; intros [= ->]; done.
Qed.

(** How the handler acts on the promise once it is resumed. *)
Lemma resume_outcome (c : Child) (line : payload) (rest : list payload)
    (st : invocation) :
  child st = ChildReady c -> waiting st = line :: rest -> outcome st = Pending ->
  outcome (resume st) = settled_by (handleLineOutput c line)
  /\ calls (resume st) = (calls st ++ handleLineOutput c line)%list
  /\ waiting (resume st) = rest.
Proof.
  intros Hc Hw Hp. unfold resume. rewrite Hc, Hw. simpl. by rewrite Hp.
Qed.

(** C3, as the specification words it, does not hold: a second line with
    "installed:" kills and resolves a second time. *)
Lemma installed_twice_kills_twice :
  calls (run (installPackageCommand "pantry/foo")
           [SpawnDone {| pid := 7 |};
            Emit (Stdout "installed: pantry/foo"); Resume;
            Emit (Stderr "installed: pantry/foo"); Resume])
  = [Spawn "tea-install" ["+pantry/foo"; "true"];
     Kill; Resolve 7; Kill; Resolve 7].
Proof. reflexivity. Qed.

(** C3, amended: the promise settles at most once.  After the first
    qualifying event no later event changes the outcome; the handler still
    runs for later events, and its calls of [resolve] and [reject] then have
    no effect. *)
Theorem outcome_settles_once (full_name : string) (ts ts' : list turn) :
  outcome (run (installPackageCommand full_name) ts) <> Pending ->
  outcome (run (installPackageCommand full_name) (ts ++ ts'))
  = outcome (run (installPackageCommand full_name) ts).
Proof. intros Hp. rewrite run_app. by apply outcome_run. Qed.

Lemma outcome_settles_once_witness :
  let ts := [SpawnDone {| pid := 7 |}; Emit (Stdout "installed: pantry/foo"); Resume] in
  let ts' := [Emit (Close (PTerminated (Some 1) None)); Resume] in
  outcome (run (installPackageCommand "pantry/foo") ts) <> Pending
  /\ outcome (run (installPackageCommand "pantry/foo") (ts ++ ts'))
     = outcome (run (installPackageCommand "pantry/foo") ts).
Proof.
  split; [discriminate |].
  apply (outcome_settles_once "pantry/foo"
           [SpawnDone {| pid := 7 |}; Emit (Stdout "installed: pantry/foo"); Resume]
           [Emit (Close (PTerminated (Some 1) None)); Resume]).
  discriminate.
Defined.

(** C5: [installPackage] never ends with a thrown error.  Once the install
    command has settled it returns normally, and a rejection is written to
    the console with its reason. *)
Theorem installPackage_never_throws (full_name : string) (ts : list turn) :
  (forall e, (installPackage full_name ts).1 <> Throw e)
  /\ (outcome (run (installPackageCommand full_name) ts) <> Pending ->
      (installPackage full_name ts).1 = Normal tt)
  /\ (forall v, outcome (run (installPackageCommand full_name) ts) = Fulfilled v ->
        installPackage full_name ts = (Normal tt, []))
  /\ (forall r, outcome (run (installPackageCommand full_name) ts) = Rejected r ->
        installPackage full_name ts = (Normal tt, [ConsoleError r])).
Proof.
  unfold installPackage.
  destruct (outcome (run (installPackageCommand full_name) ts)) as [|v|r]; simpl;
    repeat split; try done; congruence.
Qed.

(** C6: in every run the installer is spawned once, as [tea-install] with
    the arguments ["+<name>"; "true"]. *)
Theorem installer_spawned_with_args (full_name : string) (ts : list turn) :
  filter (fun a => is_spawn a = true) (calls (run (installPackageCommand full_name) ts))
  = [Spawn "tea-install" ["+" +:+ full_name; "true"]]
  /\ calls (run (installPackageCommand full_name) ts) !! 0%nat
     = Some (Spawn "tea-install" [String "+" full_name; "true"]).
Proof.
  split; [apply consistent_run |].
  induction ts as [|t ts IH] using rev_ind; [done |].
  unfold run in *. rewrite foldl_app. simpl.
  set (st := foldl step (installPackageCommand full_name) ts) in *.
  destruct t as [[line|line|line|line]|c| |]; simpl; try done.
  - by apply lookup_app_l_Some.
  - by do 2 apply lookup_app_l_Some.
  - unfold settle_child. by destruct (child st).
  - unfold settle_child. by destruct (child st).
  - unfold resume. destruct (child st) as [|c|], (waiting st) as [|line rest];
      try done.
    by apply lookup_app_l_Some.
Qed.

(** X24: an [error] event that finds the promise pending rejects it with the
    payload of the event, whatever else the handler does with that payload
    and whatever happens afterwards; the installer is not spawned again. *)
Theorem error_event_rejects (full_name : string) (ts ts' : list turn) (p : payload) :
  outcome (run (installPackageCommand full_name) ts) = Pending ->
  outcome (run (installPackageCommand full_name) (ts ++ Emit (Error p) :: ts'))
  = Rejected p
  /\ filter (fun a => is_spawn a = true)
       (calls (run (installPackageCommand full_name) (ts ++ Emit (Error p) :: ts')))
     = [Spawn "tea-install" ["+" +:+ full_name; "true"]].
Proof.
  intros Hp. split; [|apply consistent_run].
  rewrite run_app.
  change (run ?st (Emit (Error p) :: ts')) with (run (emit (Error p) st) ts').
  assert (outcome (emit (Error p) (run (installPackageCommand full_name) ts))
          = Rejected p) as He by (simpl; by rewrite Hp).
  rewrite outcome_run; [done | by rewrite He].
Qed.

Lemma error_event_rejects_witness :
  let ts := [SpawnDone {| pid := 7 |}; Emit (Stdout "downloading: pkg@1.0"); Resume] in
  let ts' := [Resume; Emit (Close (PTerminated (Some 0) None)); Resume] in
  outcome (run (installPackageCommand "pantry/bar") ts) = Pending
  /\ outcome (run (installPackageCommand "pantry/bar")
                (ts ++ Emit (Error (PLine "installed: no")) :: ts'))
     = Rejected (PLine "installed: no")
  /\ filter (fun a => is_spawn a = true)
       (calls (run (installPackageCommand "pantry/bar")
                 (ts ++ Emit (Error (PLine "installed: no")) :: ts')))
     = [Spawn "tea-install" ["+" +:+ "pantry/bar"; "true"]].
Proof.
  split; [reflexivity |].
  apply (error_event_rejects "pantry/bar"
           [SpawnDone {| pid := 7 |}; Emit (Stdout "downloading: pkg@1.0"); Resume]
           [Resume; Emit (Close (PTerminated (Some 0) None)); Resume]
           (PLine "installed: no")).
  reflexivity.
Defined.

(** C8: when the listener of [close] or the second listener of [error] is
    called with no payload (undefined, null or the empty string), it hands
    the empty string to the shared handler, which then makes no call: the
    promise is as it was before. *)
Theorem empty_payload_no_resolution (p : payload) (c : Child) (st : invocation) :
  no_payload p ->
  or_empty p = PLine ""
  /\ handleLineOutput c (or_empty p) = []
  /\ waiting (on_close p st) = (waiting st ++ [PLine ""])%list
  /\ waiting (on_error p st) = (waiting st ++ [PLine ""])%list
  /\ outcome (on_close p st) = outcome st
  /\ outcome (on_error p st) = outcome st
  /\ (child st = ChildReady c -> waiting st = [] ->
      outcome (resume (on_close p st)) = outcome st
      /\ outcome (resume (on_error p st)) = outcome st
      /\ waiting (resume (on_close p st)) = []
      /\ waiting (resume (on_error p st)) = []).
Proof.
  intros Hp.
  assert (or_empty p = PLine "") as He by (destruct Hp as [-> | [-> | ->]]; done).
  assert (forall a, is_settling a = false -> settle a (outcome st) = outcome st) as Hs
    by (intros a Ha; destruct a, (outcome st); done).
  unfold on_close, on_error, resume. rewrite He. simpl.
  do 6 (split; [done || by apply Hs |]).
  intros Hc Hw. rewrite Hc, Hw. simpl.
  repeat split; by apply Hs.
Qed.

Lemma empty_payload_no_resolution_witness :
  let st := run (installPackageCommand "pantry/foo") [SpawnDone {| pid := 7 |}] in
  no_payload PNull
  /\ or_empty PNull = PLine ""
  /\ handleLineOutput {| pid := 7 |} (or_empty PNull) = []
  /\ waiting (on_close PNull st) = (waiting st ++ [PLine ""])%list
  /\ waiting (on_error PNull st) = (waiting st ++ [PLine ""])%list
  /\ outcome (on_close PNull st) = outcome st
  /\ outcome (on_error PNull st) = outcome st
  /\ (child st = ChildReady {| pid := 7 |} -> waiting st = [] ->
      outcome (resume (on_close PNull st)) = outcome st
      /\ outcome (resume (on_error PNull st)) = outcome st
      /\ waiting (resume (on_close PNull st)) = []
      /\ waiting (resume (on_error PNull st)) = []).
Proof.
  split; [right; left; reflexivity |].
  apply (empty_payload_no_resolution PNull {| pid := 7 |}
           (run (installPackageCommand "pantry/foo") [SpawnDone {| pid := 7 |}])).
  right; left; reflexivity.
Defined.

(** The first listener of [error] is [reject]: an [error] event with no
    payload still rejects a pending promise. *)
Lemma error_event_without_payload :
  outcome (run (installPackageCommand "pantry/foo")
             [SpawnDone {| pid := 7 |}; Emit (Error PNull); Resume])
  = Rejected PNull.
Proof. reflexivity. Qed.

Lemma step_spawn_rejected (st : invocation) (t : turn) :
  child st = ChildFailed -> outcome st = Pending ->
  (forall p, t <> Emit (Error p)) ->
  child (step st t) = ChildFailed /\ outcome (step st t) = Pending.
Proof.
  intros Hc Hp Ht. destruct t as [[line|line|line|line]|c| |]; simpl.
  - done.
  - done.
  - by rewrite Hp.
  - by destruct (Ht line).
  - unfold settle_child. by rewrite Hc.
  - unfold settle_child. by rewrite Hc.
  - unfold resume. rewrite Hc. by destruct (waiting st).
Qed.

(** X20: when the promise [child] is rejected, every resumed handler stops
    at [await child]: only an [error] event can settle the invocation then. *)
Lemma spawn_rejected_keeps_waiting (full_name : string) (ts : list turn) :
  (forall p, Emit (Error p) ∉ ts) ->
  outcome (run (installPackageCommand full_name) (SpawnFailed :: ts)) = Pending.
Proof.
  intros Hts.
  assert (forall st, child st = ChildFailed -> outcome st = Pending ->
            outcome (run st ts) = Pending) as Hrun.
  { induction ts as [|t ts IH]; intros st Hc Hp; [done |].
    destruct (step_spawn_rejected st t Hc Hp) as [Hc' Hp'].
    - intros p ->. apply (Hts p). by left.
    - apply (IH (fun p Hin => Hts p (list_elem_of_further _ _ _ Hin)) _ Hc' Hp'). }
  by apply Hrun.
Qed.

(** C7, at a launch failure: when [spawn()] itself fails, the promise
    [child] is rejected and no event follows.  Nothing calls [reject] then:
    the promise of the install command stays pending, and [installPackage]
    is left waiting instead of reporting the failure. *)
Theorem launch_failure_is_not_rejected (full_name : string) :
  outcome (run (installPackageCommand full_name) [SpawnFailed]) = Pending
  /\ calls (run (installPackageCommand full_name) [SpawnFailed])
     = [Spawn "tea-install" ["+" +:+ full_name; "true"]]
  /\ installPackage full_name [SpawnFailed] = (Suspended, []).
Proof. repeat split. Qed.

(** ** Properties of request signing *)

Lemma append_cancel_l (a b c : string) : a +:+ b = a +:+ c -> b = c.
Proof.
  induction a as [|x a IH]; simpl; [done |].
  intros H. injection H as H. by apply IH.
Qed.

Lemma append_assoc (a b c : string) : (a +:+ b) +:+ c = a +:+ b +:+ c.
Proof.
  induction a as [|x a IH]; [done |].
  change (String x ((a +:+ b) +:+ c) = String x (a +:+ b +:+ c)).
  by rewrite IH.
Qed.

(** The salt can be read off the hash: hashing the same text with two salts
    of the same length gives the same result only if the salts are equal. *)
Lemma hashSync_salt (digest : string -> string -> string) (s1 s2 : string)
    (rounds : nat) (chars1 chars2 : string) :
  String.length chars1 = String.length chars2 ->
  hashSync digest s1 rounds chars1 = hashSync digest s2 rounds chars2 ->
  chars1 = chars2.
Proof.
  unfold hashSync, genSaltSync. intros Hlen H.
  rewrite !append_assoc in H.
  do 4 apply append_cancel_l in H.
  by apply append_same_length in H.
Qed.

Lemma getHeaders_Authorization (digest : string -> string -> string)
    (a : ambient) (path : string) (session : Session) :
  prop (getHeaders digest a path session) "Authorization"
  = VStr (hashSync digest (preHash (clock a) path session) 10 (salt_chars a)).
Proof. unfold prop, getHeaders. by rewrite lookup_insert_eq. Qed.

Lemma authorization_salt (digest : string -> string -> string)
    (a1 a2 : ambient) (path : string) (s1 s2 : Session) :
  String.length (salt_chars a1) = String.length (salt_chars a2) ->
  prop (getHeaders digest a1 path s1) "Authorization"
  = prop (getHeaders digest a2 path s2) "Authorization" ->
  salt_chars a1 = salt_chars a2.
Proof.
  intros Hlen H. rewrite !getHeaders_Authorization in H.
  assert (forall x y, VStr x = VStr y -> x = y) as Hinj by congruence.
  apply Hinj in H. by apply hashSync_salt in H.
Qed.

(** The four headers of a signed request. *)
Example getHeaders_keys :
  dom (getHeaders (fun _ _ => "") {| clock := 1500; salt_chars := "N9qo8uLOickgx2ZMRZoMye";
                            current_session := None |}
         "GET/packages" {| device_id := Some "dev-1"; key := Some "k"; user := None |})
  = ({[ "Authorization"; "tea-ts"; "tea-uid"; "tea-gui_id" ]} : gset string).
Proof. vm_compute. reflexivity. Qed.

Lemma drawn_salt_length (chars : string) :
  drawn_salt chars = true -> String.length chars = 22%nat.
Proof.
  unfold drawn_salt. intros H.
  apply andb_true_iff in H as [H _]. apply andb_true_iff in H as [H _].
  by apply Nat.eqb_eq in H.
Qed.

(** C4, as the specification words it, does not hold: two runs at the same
    time, for the same session and the same path, for which bcrypt draws
    two different salts give different authorization values, whatever
    digest bcrypt computes. *)
Lemma authorization_depends_on_salt :
  let session :=
    {| device_id := Some "1a2b-3c4d"; key := Some "secret";
       user := Some {| developer_id := Some "dev" |} |} in
  let first :=
    {| clock := 1700000000000; salt_chars := "N9qo8uLOickgx2ZMRZoMye";
       current_session := Some session |} in
  let second :=
    {| clock := 1700000000000; salt_chars := "abcdefghijklmnopqrstuu";
       current_session := Some session |} in
  drawn_salt (salt_chars first) = true
  /\ drawn_salt (salt_chars second) = true
  /\ ~ exists digest,
        prop (getHeaders digest first "GET/packages" session) "Authorization"
        = prop (getHeaders digest second "GET/packages" session) "Authorization".
Proof.
  intros session first second.
  split; [reflexivity |]. split; [reflexivity |].
  intros [digest H].
  apply authorization_salt in H; [discriminate H | reflexivity].
Qed.

(** C4, amended: for two runs with the same time, session key, device id
    and path, the authorization values are the same when bcrypt drew the
    same salt, and different when it drew two different salts.  Of the time
    only the rounded seconds matter, and of the device id only the part
    before the first dash. *)
Theorem authorization_by_salt (digest : string -> string -> string)
    (a1 a2 : ambient) (path : string) (s1 s2 : Session) :
  round_secs (clock a1) = round_secs (clock a2) ->
  key s1 = key s2 ->
  first_segment "-" <$> device_id s1 = first_segment "-" <$> device_id s2 ->
  (salt_chars a1 = salt_chars a2 ->
   prop (getHeaders digest a1 path s1) "Authorization"
   = prop (getHeaders digest a2 path s2) "Authorization")
  /\ (drawn_salt (salt_chars a1) = true -> drawn_salt (salt_chars a2) = true ->
      salt_chars a1 <> salt_chars a2 ->
      prop (getHeaders digest a1 path s1) "Authorization"
      <> prop (getHeaders digest a2 path s2) "Authorization").
Proof.
  intros Hclock Hkey Hdev. split.
  - intros Hsalt. rewrite !getHeaders_Authorization. unfold preHash.
    by rewrite Hclock, Hkey, Hdev, Hsalt.
  - intros H1 H2 Hne H. apply Hne.
    apply (authorization_salt digest a1 a2 path s1 s2); [|done].
    by rewrite !drawn_salt_length.
Qed.

Lemma authorization_by_salt_witness :
  let s1 := {| device_id := Some "1a2b-3c4d"; key := Some "secret";
               user := Some {| developer_id := Some "dev" |} |} in
  let s2 := {| device_id := Some "1a2b-ffff"; key := Some "secret"; user := None |} in
  let a1 := {| clock := 1700000000000; salt_chars := "N9qo8uLOickgx2ZMRZoMye";
               current_session := Some s1 |} in
  let a2 := {| clock := 1700000000499; salt_chars := "N9qo8uLOickgx2ZMRZoMye";
               current_session := Some s2 |} in
  let a3 := {| clock := 1700000000499; salt_chars := "abcdefghijklmnopqrstuu";
               current_session := Some s2 |} in
  let digest := fun text salt : string => text in
  round_secs (clock a1) = round_secs (clock a2)
  /\ key s1 = key s2
  /\ first_segment "-" <$> device_id s1 = first_segment "-" <$> device_id s2
  /\ prop (getHeaders digest a1 "GET/packages" s1) "Authorization"
     = prop (getHeaders digest a2 "GET/packages" s2) "Authorization"
  /\ prop (getHeaders digest a1 "GET/packages" s1) "Authorization"
     <> prop (getHeaders digest a3 "GET/packages" s2) "Authorization".
Proof.
  intros s1 s2 a1 a2 a3 digest.
  do 3 (split; [reflexivity |]).
  split.
  - apply (authorization_by_salt digest a1 a2 "GET/packages" s1 s2);
      reflexivity.
  - apply (authorization_by_salt digest a1 a3 "GET/packages" s1 s2);
      try reflexivity.
    discriminate.
Defined.

(** C9: a request made without a session, or with a session that has no
    device id or no user, carries the single header [Authorization] with the
    value "public " and none of the signed headers; every other request
    carries the headers that [getHeaders] computes for "GET/<path>". *)
Theorem get_public_or_signed (digest : string -> string -> string) (a : ambient)
    (path : string) (query : option (gmap string string)) :
  (lacks_identity (current_session a) ->
   req_headers (get_request digest a path query) = {[ "Authorization" := VStr "public " ]}
   /\ req_headers (get_request digest a path query) !! "Authorization"
      = Some (VStr "public ")
   /\ req_headers (get_request digest a path query) !! "tea-ts" = None
   /\ req_headers (get_request digest a path query) !! "tea-uid" = None
   /\ req_headers (get_request digest a path query) !! "tea-gui_id" = None)
  /\ (~ lacks_identity (current_session a) ->
      exists session, current_session a = Some session
        /\ req_headers (get_request digest a path query)
           = getHeaders digest a ("GET/" +:+ path) session).
Proof.
  unfold get_request, lacks_identity.
  destruct (current_session a) as [[dev k usr]|]; simpl.
  - destruct dev as [[|ch dev]|], usr as [u|]; simpl.
    all: split; [intros Hlack | intros Hsigned].
    all: try (by repeat split).
    all: try (exfalso; apply Hsigned; auto; fail).
    + by destruct Hlack as [H | [H | H]].
    + by eexists.
  - split; [by repeat split | tauto].
Qed.

(** ** Properties of the catalog *)

Lemma find_installed_as (installedPackages : list obj) (pkg p : obj) :
  installed_as installedPackages pkg p ->
  List.find (fun q => strict_eq (prop q "full_name") (prop pkg "full_name"))
    installedPackages = Some p.
Proof.
  intros (i & Hi & Heq & Hbefore). revert i Hi Hbefore.
  induction installedPackages as [|q l IH]; intros [|i] Hi Hbefore; try done.
  - injection Hi as ->. simpl. unfold strict_eq. by rewrite bool_decide_eq_true_2.
  - simpl. unfold strict_eq at 1. rewrite bool_decide_eq_false_2.
    + apply (IH i); [done |]. intros j r Hj. apply (Hbefore (S j)). lia.
    + apply (Hbefore 0%nat); [lia | done].
Qed.

Lemma find_full_name (installedPackages : list obj) (pkg : obj) :
  is_Some (List.find (fun q => strict_eq (prop q "full_name") (prop pkg "full_name"))
             installedPackages)
  <-> exists p, p ∈ installedPackages /\ prop p "full_name" = prop pkg "full_name".
Proof.
  split.
  - intros [p Hp]. apply find_some in Hp as [Hin Heq].
    exists p. split; [by apply list_elem_of_In |].
    by apply bool_decide_eq_true_1 in Heq.
  - intros (p & Hin & Heq).
    destruct (List.find _ installedPackages) as [q|] eqn:E; [by eexists |].
    apply list_elem_of_In in Hin.
    pose proof (find_none _ _ E p Hin) as Hf. simpl in Hf.
    unfold strict_eq in Hf. by rewrite bool_decide_eq_true_2 in Hf.
Qed.

(** C10: [getPackages] returns one entry per catalog package, in the same
    order.  Each entry has the properties of the catalog package, except
    that [state] is INSTALLED when some installed package has the same
    full name and AVAILABLE otherwise, and that [installed_version] is the
    version of the first such installed package, or the empty string when
    there is none. *)
Theorem getPackages_merge (digest : string -> string -> string)
    (client : request -> list obj) (a : ambient) (installedPackages : list obj) :
  let packages := get digest client a "packages" None in
  let matched (pkg : obj) :=
    exists p, p ∈ installedPackages /\ prop p "full_name" = prop pkg "full_name" in
  Datatypes.length (getPackages digest client a installedPackages)
  = Datatypes.length packages
  /\ forall i pkg, packages !! i = Some pkg ->
       exists entry, getPackages digest client a installedPackages !! i = Some entry
         /\ (forall k, k <> "state" -> k <> "installed_version" ->
               entry !! k = pkg !! k)
         /\ (entry !! "state" = Some (VEnum INSTALLED) <-> matched pkg)
         /\ (entry !! "state" = Some (VEnum AVAILABLE) <-> ~ matched pkg)
         /\ (forall p, installed_as installedPackages pkg p ->
               entry !! "installed_version" = Some (prop p "version"))
         /\ (~ matched pkg -> entry !! "installed_version" = Some (VStr "")).
Proof.
  intros packages matched. unfold getPackages. fold packages.
  split; [apply length_fmap |].
  intros i pkg Hi. exists (with_install_state installedPackages pkg).
  split; [by rewrite list_lookup_fmap, Hi |].
  pose proof (find_full_name installedPackages pkg) as Hfind.
  fold (matched pkg) in Hfind.
  unfold with_install_state.
  split; [intros k Hk1 Hk2; by rewrite !lookup_insert_ne |].
  rewrite lookup_insert_ne by done. rewrite !lookup_insert_eq.
  split; [|split; [|split]].
  - rewrite <- Hfind.
    destruct (List.find _ installedPackages); split; intros H;
      try done; by destruct H.
  - rewrite <- Hfind.
    destruct (List.find _ installedPackages) as [q|]; split; intros H.
    + discriminate H.
    + exfalso. apply H. by eexists.
    + by intros [q Hq].
    + reflexivity.
  - intros p Hp. by rewrite (find_installed_as _ _ _ Hp).
  - rewrite <- Hfind. intros H.
    destruct (List.find _ installedPackages); [|done]. by destruct H.
Qed.

(** ** More about paths and names *)

Lemma append_cons (c : ascii) (a b : string) :
  String c a +:+ b = String c (a +:+ b).
Proof. reflexivity. Qed.

Lemma append_empty_r (a : string) : a +:+ "" = a.
Proof.
  induction a as [|c a IH]; [done |]. rewrite append_cons. by rewrite IH.
Qed.

Lemma string_cons_neq (c : ascii) (s : string) : String c s <> s.
Proof.
  intros H. apply (f_equal String.length) in H. simpl in H. lia.
Qed.

Lemma drop_trailing_slash_cons (c d : ascii) (rest : string) :
  drop_trailing_slash (String c (String d rest))
  = String c (drop_trailing_slash (String d rest)).
Proof. reflexivity. Qed.

Lemma drop_trailing_slash_added (s : string) :
  drop_trailing_slash (s +:+ "/") = s.
Proof.
  induction s as [|c s IH]; [done |].
  rewrite append_cons. destruct s as [|d s]; [done |].
  rewrite append_cons in *. by rewrite drop_trailing_slash_cons, IH.
Qed.

Lemma drop_trailing_slash_none (s : string) :
  (forall front, s <> front +:+ "/") -> drop_trailing_slash s = s.
Proof.
  induction s as [|c s IH]; intros Hs; [done |].
  destruct s as [|d s].
  - simpl. destruct (Ascii.eqb_spec c "/") as [->|]; [|done].
    by destruct (Hs "").
  - rewrite drop_trailing_slash_cons, IH; [done |].
    intros front Hfront. apply (Hs (String c front)).
    by rewrite append_cons, <- Hfront.
Qed.

Lemma drop_leading_slash_none (s : string) :
  (forall rest, s <> "/" +:+ rest) -> drop_leading_slash s = s.
Proof.
  intros Hs. destruct s as [|c s]; [done |].
  destruct (Ascii.eqb_spec c "/") as [->|Hc]; [by destruct (Hs s) |].
  destruct c as [[] [] [] [] [] [] [] []]; done.
Qed.

(** X1: the callback of [join] takes away one slash at the front and one at
    the end, and no more: a path with no slash at either end comes back
    whether it is given bare or with a slash on one or both sides, and of
    two leading slashes one is kept. *)
Theorem trimmed_one_slash (path : string) :
  clean_path path ->
  trimmed path = path
  /\ trimmed ("/" +:+ path) = path
  /\ trimmed (path +:+ "/") = path
  /\ trimmed ("/" +:+ path +:+ "/") = path
  /\ (path <> "" -> trimmed ("/" +:+ "/" +:+ path) = "/" +:+ path).
Proof.
  intros [Hfront Hend]. unfold trimmed.
  assert (drop_leading_slash ("/" +:+ path) = path) as Hlead by done.
  repeat split.
  - by rewrite drop_leading_slash_none, drop_trailing_slash_none.
  - by rewrite Hlead, drop_trailing_slash_none.
  - destruct path as [|c path]; [done |].
    rewrite drop_leading_slash_none; [apply drop_trailing_slash_added |].
    intros rest Hrest. rewrite append_cons in Hrest.
    injection Hrest as -> _. by destruct (Hfront path).
  - change (drop_leading_slash ("/" +:+ path +:+ "/")) with (path +:+ "/").
    apply drop_trailing_slash_added.
  - intros Hne.
    change (drop_leading_slash ("/" +:+ "/" +:+ path)) with ("/" +:+ path).
    apply drop_trailing_slash_none. intros front Hfr.
    destruct front as [|c front].
    + injection Hfr as Hp. by destruct Hne.
    + rewrite append_cons in Hfr. injection Hfr as _ Hp. by destruct (Hend front).
Qed.

Lemma trimmed_one_slash_witness :
  clean_path "packages/categorized"
  /\ trimmed "packages/categorized" = "packages/categorized"
  /\ trimmed ("/" +:+ "packages/categorized") = "packages/categorized"
  /\ trimmed ("packages/categorized" +:+ "/") = "packages/categorized"
  /\ trimmed ("/" +:+ "packages/categorized" +:+ "/") = "packages/categorized"
  /\ ("packages/categorized" <> "" ->
      trimmed ("/" +:+ "/" +:+ "packages/categorized") = "/" +:+ "packages/categorized").
Proof.
  assert (clean_path "packages/categorized") as Hclean.
  { split.
    - intros rest H. discriminate H.
    - intros front H. pose proof (f_equal drop_trailing_slash H) as Hfront.
      rewrite drop_trailing_slash_added in Hfront. subst front.
      vm_compute in H. discriminate H. }
  split; [exact Hclean |].
  exact (trimmed_one_slash "packages/categorized" Hclean).
Defined.

Lemma contains_char_cons (x c : ascii) (s : string) :
  contains (String x "") (String c s) <-> c = x \/ contains (String x "") s.
Proof.
  split.
  - intros ([|b before] & after & H).
    + injection H as -> _. by left.
    + rewrite append_cons in H. injection H as _ H. right. by exists before, after.
  - intros [-> | (before & after & ->)].
    + by exists "", s.
    + by exists (String c before), after.
Qed.

Lemma contains_char_empty (x : ascii) : ~ contains (String x "") "".
Proof. intros ([|b before] & after & H); discriminate H. Qed.

(** X2: [s.split(sep)[0]] is the text in front of the first separator: it
    has no separator in it, and what follows it in [s] is nothing or begins
    with the separator. *)
Theorem first_segment_before_separator (sep : ascii) (s : string) :
  exists rest,
    s = first_segment sep s +:+ rest
    /\ ~ contains (String sep "") (first_segment sep s)
    /\ (rest = "" \/ exists after, rest = String sep after).
Proof.
  induction s as [|c s (rest & Hs & Hfree & Hrest)]; simpl.
  - exists "". split; [done |]. split; [apply contains_char_empty | by left].
  - destruct (Ascii.eqb_spec c sep) as [->|Hc].
    + exists (String sep s). split; [done |].
      split; [apply contains_char_empty | right; by exists s].
    + exists rest. split; [by rewrite append_cons, <- Hs |].
      split; [|done]. rewrite contains_char_cons. by intros [? | ?].
Qed.

Lemma first_segment_app (sep : ascii) (x d : string) :
  ~ contains (String sep "") x ->
  first_segment sep (x +:+ d) = x +:+ first_segment sep d.
Proof.
  induction x as [|c x IH]; intros Hx; [done |].
  rewrite contains_char_cons in Hx. rewrite !append_cons. simpl.
  destruct (Ascii.eqb_spec c sep) as [->|Hc]; [by destruct Hx; left |].
  rewrite IH; [done |]. intros H. apply Hx. by right.
Qed.

Lemma replaceAll_free (from to : ascii) (s : string) :
  from <> to -> ~ contains (String from "") (replaceAll from to s).
Proof.
  intros Hne. induction s as [|c s IH]; simpl; [apply contains_char_empty |].
  rewrite contains_char_cons. intros [H | H]; [|done].
  destruct (Ascii.eqb_spec c from); congruence.
Qed.

Lemma replaceAll_back (from to : ascii) (s : string) :
  ~ contains (String to "") s -> replaceAll to from (replaceAll from to s) = s.
Proof.
  induction s as [|c s IH]; intros Hs; [done |].
  rewrite contains_char_cons in Hs. simpl.
  rewrite IH by (intros H; apply Hs; by right). f_equal.
  destruct (Ascii.eqb_spec c from) as [->|Hc].
  - by rewrite Ascii.eqb_refl.
  - destruct (Ascii.eqb_spec c to) as [->|]; [|done]. destruct Hs. by left.
Qed.

(** X3: the name that [getPackageReviews] puts into its path has no slash
    left in it and is as long as the full name; encoding it again changes
    nothing, so a name and its encoded form ask for the same reviews. *)
Theorem reviews_name_has_no_slash (full_name : string) :
  ~ contains "/" (replaceAll "/" ":" full_name)
  /\ String.length (replaceAll "/" ":" full_name) = String.length full_name
  /\ replaceAll "/" ":" (replaceAll "/" ":" full_name) = replaceAll "/" ":" full_name.
Proof.
  split; [apply replaceAll_free; done |].
  split; induction full_name as [|c s IH]; simpl; try done.
  - by rewrite IH.
  - rewrite IH. f_equal. destruct (Ascii.eqb c "/") eqn:E; [done | by rewrite E].
Qed.

(** X4: a full name without a colon can be read back from the name in the
    reviews path, by putting the slashes back. *)
Theorem reviews_name_round_trip (full_name : string) :
  ~ contains ":" full_name ->
  replaceAll ":" "/" (replaceAll "/" ":" full_name) = full_name.
Proof. apply replaceAll_back. Qed.

Lemma reviews_name_round_trip_witness :
  ~ contains ":" "gnu.org/wget"
  /\ replaceAll ":" "/" (replaceAll "/" ":" "gnu.org/wget") = "gnu.org/wget".
Proof.
  assert (~ contains ":" "gnu.org/wget") as Hfree.
  { intros H. apply includes_contains in H. discriminate H. }
  split; [exact Hfree |].
  exact (reviews_name_round_trip "gnu.org/wget" Hfree).
Defined.

Lemma get_request_uri (digest : string -> string -> string) (a : ambient)
    (path : string) (query : option (gmap string string)) :
  req_uri (get_request digest a path query) = apiBaseUrl +:+ "/" +:+ trimmed path.
Proof. reflexivity. Qed.

Lemma drop_trailing_slash_last (s : string) (c : ascii) :
  c <> "/"%char -> drop_trailing_slash (s +:+ String c "") = s +:+ String c "".
Proof.
  intros Hc. induction s as [|d s IH].
  - simpl. by destruct (Ascii.eqb_spec c "/").
  - rewrite append_cons. destruct s as [|e s]; [|].
    + change ("" +:+ String c "") with (String c "") in *.
      by rewrite drop_trailing_slash_cons, IH.
    + rewrite append_cons in *. by rewrite drop_trailing_slash_cons, IH.
Qed.

(** X5: [getPackageReviews] logs the full name and then asks for
    [<base>/packages/<encoded name>/reviews], with an empty query; the
    encoded name is one path segment, whatever the full name is. *)
Theorem getPackageReviews_request (digest : string -> string -> string)
    (client : request -> list obj) (a : ambient) (full_name : string) :
  exists r,
    getPackageReviews digest client a full_name
    = (Normal (client r), [ConsoleLog ("getting reviews for " +:+ full_name) None])
    /\ req_uri r
       = apiBaseUrl +:+ "/packages/" +:+ replaceAll "/" ":" full_name +:+ "/reviews"
    /\ req_query r = ∅
    /\ ~ contains "/" (replaceAll "/" ":" full_name).
Proof.
  eexists. split; [reflexivity |].
  split; [|split; [done | apply replaceAll_free; done]].
  rewrite get_request_uri. unfold trimmed.
  change (drop_leading_slash ("packages/" +:+ ?x)) with ("packages/" +:+ x).
  change ("/reviews") with ("/review" +:+ "s").
  rewrite <- !append_assoc. rewrite drop_trailing_slash_last by done.
  by rewrite !append_assoc.
Qed.

(** ** More about request signing *)

Lemma preHash_path (ms : Z) (path : string) (session : Session) :
  preHash ms path session = preHash ms "" session +:+ path.
Proof.
  unfold preHash, join_empty. simpl.
  change (String.concat "" [?a; ?b; ?c; ?d]) with (a +:+ b +:+ c +:+ d).
  by rewrite !append_assoc.
Qed.

(** X6: a slash in front of the path changes nothing in the address the
    request goes to, but it is part of the text that is signed. *)
Theorem leading_slash_uri_and_signature (digest : string -> string -> string)
    (a : ambient) (path : string) (query : option (gmap string string))
    (session : Session) :
  (forall rest, path <> "/" +:+ rest) ->
  req_uri (get_request digest a ("/" +:+ path) query)
  = req_uri (get_request digest a path query)
  /\ preHash (clock a) ("GET/" +:+ "/" +:+ path) session
     <> preHash (clock a) ("GET/" +:+ path) session.
Proof.
  intros Hpath. split.
  - rewrite !get_request_uri. unfold trimmed.
    change (drop_leading_slash ("/" +:+ path)) with path.
    by rewrite drop_leading_slash_none.
  - rewrite (preHash_path _ ("GET/" +:+ "/" +:+ path)).
    rewrite (preHash_path _ ("GET/" +:+ path)).
    intros H. apply append_cancel_l in H.
    apply (append_cancel_l "GET/") in H.
    by apply string_cons_neq in H.
Qed.

Lemma leading_slash_uri_and_signature_witness :
  let a := {| clock := 1700000000000; salt_chars := "N9qo8uLOickgx2ZMRZoMye";
              current_session := None |} in
  let session := {| device_id := Some "1a2b-3c4d"; key := Some "secret"; user := None |} in
  let digest := fun text salt : string => text in
  (forall rest, "packages/categorized" <> "/" +:+ rest)
  /\ req_uri (get_request digest a ("/" +:+ "packages/categorized") None)
     = req_uri (get_request digest a "packages/categorized" None)
  /\ preHash (clock a) ("GET/" +:+ "/" +:+ "packages/categorized") session
     <> preHash (clock a) ("GET/" +:+ "packages/categorized") session.
Proof.
  assert (forall rest, "packages/categorized" <> "/" +:+ rest) as Hpath
    by (intros rest H; discriminate H).
  split; [exact Hpath |].
  exact (leading_slash_uri_and_signature (fun text salt : string => text)
           {| clock := 1700000000000; salt_chars := "N9qo8uLOickgx2ZMRZoMye";
              current_session := None |}
           "packages/categorized" None
           {| device_id := Some "1a2b-3c4d"; key := Some "secret"; user := None |}
           Hpath).
Defined.

(** X7: the seconds that go into the hash are within half a second of the
    time sent in [tea-ts], and a later time never gives earlier seconds. *)
Theorem round_secs_bounds (ms ms' : Z) :
  1000 * round_secs ms - 500 <= ms < 1000 * round_secs ms + 500
  /\ (ms <= ms' -> round_secs ms <= round_secs ms').
Proof.
  unfold round_secs. split.
  - pose proof (Z.div_mod (ms + 500) 1000).
    pose proof (Z.mod_pos_bound (ms + 500) 1000). lia.
  - intros H. apply Z.div_le_mono; lia.
Qed.

(** X8: the hexadecimal seconds can be read back: parsing [n.toString(16)]
    as a hexadecimal number gives [n], for every [n] that is not negative. *)
Theorem toString16_round_trip (n : Z) :
  0 <= n -> Z.of_N (HexString.Raw.to_N (toString16 n) 0) = n.
Proof.
  intros Hn. destruct n as [|p|p]; [done | | lia].
  simpl. by rewrite HexString.Raw.to_N_of_pos.
Qed.

Lemma toString16_round_trip_witness :
  0 <= 1700000000 /\ Z.of_N (HexString.Raw.to_N (toString16 1700000000) 0) = 1700000000.
Proof.
  split; [lia |]. apply (toString16_round_trip 1700000000). lia.
Defined.

Lemma hashSync_not_public (digest : string -> string -> string) (s : string)
    (rounds : nat) (chars : string) :
  hashSync digest s rounds chars <> "public ".
Proof.
  unfold hashSync, genSaltSync. rewrite append_assoc. intros H. discriminate H.
Qed.

Lemma get_request_headers_cases (digest : string -> string -> string) (a : ambient)
    (path : string) (query : option (gmap string string)) :
  (lacks_identity (current_session a)
   /\ req_headers (get_request digest a path query)
      = {[ "Authorization" := VStr "public " ]})
  \/ (exists session d u,
        current_session a = Some session
        /\ device_id session = Some d /\ d <> "" /\ user session = Some u
        /\ ~ lacks_identity (current_session a)
        /\ req_headers (get_request digest a path query)
           = getHeaders digest a ("GET/" +:+ path) session).
Proof.
  unfold get_request, lacks_identity.
  destruct (current_session a) as [[dev k usr]|]; simpl; [|by left].
  destruct dev as [[|ch dev]|], usr as [u|]; simpl; try (left; by auto).
  right. exists {| device_id := Some (String ch dev); key := k; user := Some u |}.
  exists (String ch dev), u. repeat split; try done.
  by intros [H | [H | H]].
Qed.

(** X9: every request that [get] makes has the header [Authorization], and
    its value is "public " exactly when the session is absent or has no
    device id or no user: a signed value is never that text. *)
Theorem authorization_public_iff (digest : string -> string -> string) (a : ambient)
    (path : string) (query : option (gmap string string)) :
  exists v,
    req_headers (get_request digest a path query) !! "Authorization" = Some (VStr v)
    /\ (v = "public " <-> lacks_identity (current_session a)).
Proof.
  destruct (get_request_headers_cases digest a path query)
    as [[Hlack Hh] | (session & d & u & Hs & Hd & Hne & Hu & Hsigned & Hh)].
  - exists "public ". by rewrite Hh, lookup_singleton_eq.
  - exists (hashSync digest (preHash (clock a) ("GET/" +:+ path) session) 10 (salt_chars a)).
    rewrite Hh. unfold getHeaders. rewrite lookup_insert_eq. split; [done |].
    split; [intros H; by apply hashSync_not_public in H | done].
Qed.

(** X10: a request that [get] signs carries exactly the four headers of
    [getHeaders]; [tea-gui_id] is the device id of the session, which is not
    empty, and [tea-ts] is the clock in decimal. *)
Theorem signed_request_headers (digest : string -> string -> string) (a : ambient)
    (path : string) (query : option (gmap string string)) :
  ~ lacks_identity (current_session a) ->
  exists session d,
    current_session a = Some session
    /\ device_id session = Some d /\ d <> ""
    /\ dom (req_headers (get_request digest a path query))
       = ({[ "Authorization"; "tea-ts"; "tea-uid"; "tea-gui_id" ]} : gset string)
    /\ req_headers (get_request digest a path query) !! "tea-gui_id" = Some (VStr d)
    /\ req_headers (get_request digest a path query) !! "tea-ts"
       = Some (VStr (toString10 (clock a)))
    /\ req_headers (get_request digest a path query) !! "tea-uid"
       = Some (opt_str (user session ≫= developer_id)).
Proof.
  intros Hsigned.
  destruct (get_request_headers_cases digest a path query)
    as [[Hlack _] | (session & d & u & Hs & Hd & Hne & Hu & _ & Hh)]; [done |].
  exists session, d. rewrite Hh. unfold getHeaders.
  repeat split; try done.
  rewrite !lookup_insert_ne by done. by rewrite lookup_insert_eq, Hd.
Qed.

Lemma signed_request_headers_witness :
  let session := {| device_id := Some "1a2b-3c4d"; key := Some "secret";
                    user := Some {| developer_id := None |} |} in
  let a := {| clock := 1700000000000; salt_chars := "N9qo8uLOickgx2ZMRZoMye";
              current_session := Some session |} in
  let digest := fun text salt : string => text in
  ~ lacks_identity (current_session a)
  /\ exists session d,
       current_session a = Some session
       /\ device_id session = Some d /\ d <> ""
       /\ dom (req_headers (get_request digest a "packages" None))
          = ({[ "Authorization"; "tea-ts"; "tea-uid"; "tea-gui_id" ]} : gset string)
       /\ req_headers (get_request digest a "packages" None) !! "tea-gui_id"
          = Some (VStr d)
       /\ req_headers (get_request digest a "packages" None) !! "tea-ts"
          = Some (VStr (toString10 (clock a)))
       /\ req_headers (get_request digest a "packages" None) !! "tea-uid"
          = Some (opt_str (user session ≫= developer_id)).
Proof.
  assert (~ lacks_identity
            (Some {| device_id := Some "1a2b-3c4d"; key := Some "secret";
                     user := Some {| developer_id := None |} |})) as Hsigned
    by (intros [H | [H | H]]; discriminate H).
  split; [exact Hsigned |].
  exact (signed_request_headers (fun text salt : string => text)
           {| clock := 1700000000000; salt_chars := "N9qo8uLOickgx2ZMRZoMye";
              current_session :=
                Some {| device_id := Some "1a2b-3c4d"; key := Some "secret";
                        user := Some {| developer_id := None |} |} |}
           "packages" None Hsigned).
Defined.

(** X11: the hashed text has no marks between its parts: text without a
    dash can move from the end of the session key to the front of the
    device id and the hashed text stays the same. *)
Theorem preHash_key_device_boundary (ms : Z) (path k x d : string)
    (u1 u2 : option Developer) :
  ~ contains "-" x ->
  preHash ms path {| device_id := Some d; key := Some (k +:+ x); user := u1 |}
  = preHash ms path {| device_id := Some (x +:+ d); key := Some k; user := u2 |}.
Proof.
  intros Hx. unfold preHash, join_empty. simpl.
  rewrite first_segment_app by done.
  change (String.concat "" [?a; ?b; ?c; ?e]) with (a +:+ b +:+ c +:+ e).
  by rewrite !append_assoc.
Qed.

Lemma preHash_key_device_boundary_witness :
  ~ contains "-" "77"
  /\ preHash 1700000000000 "GET/packages"
       {| device_id := Some "1a2b-3c4d"; key := Some ("secret" +:+ "77"); user := None |}
     = preHash 1700000000000 "GET/packages"
         {| device_id := Some ("77" +:+ "1a2b-3c4d"); key := Some "secret"; user := None |}.
Proof.
  assert (~ contains "-" "77") as Hfree
    by (intros H; apply includes_contains in H; discriminate H).
  split; [exact Hfree |].
  exact (preHash_key_device_boundary 1700000000000 "GET/packages" "secret" "77"
           "1a2b-3c4d" None None Hfree).
Defined.

(** ** More about the fetchers *)

(** X12: [getAllPosts] sends the tag as the query only when it is a
    non-empty string; the empty tag asks for the same as no tag. *)
Theorem getAllPosts_query (digest : string -> string -> string)
    (client : request -> list obj) (a : ambient) :
  getAllPosts digest client a (Some "") = getAllPosts digest client a None
  /\ getAllPosts digest client a None
     = client (get_request digest a "posts" (Some ∅))
  /\ req_query (get_request digest a "posts" (Some ∅)) = ∅
  /\ forall t, t <> "" ->
       getAllPosts digest client a (Some t)
       = client (get_request digest a "posts" (Some {[ "tag" := t ]})).
Proof.
  repeat split; try done.
  intros t Ht. unfold getAllPosts. simpl. by destruct t.
Qed.

(** X13: [getFeaturedCourses] is [getAllPosts] for the tag "featured_course"
    with every post cut down to a course: one course per post, in order,
    with the four properties [title], [sub_title], [banner_image_url] and
    [link] and no other, the banner being the post's thumbnail.  A property
    the post lacks is there with the value [undefined]. *)
Theorem getFeaturedCourses_of_posts (digest : string -> string -> string)
    (client : request -> list obj) (a : ambient) :
  let posts := getAllPosts digest client a (Some "featured_course") in
  getFeaturedCourses digest client a = course_of_post <$> posts
  /\ Datatypes.length (getFeaturedCourses digest client a) = Datatypes.length posts
  /\ forall i post, posts !! i = Some post ->
       exists course,
         getFeaturedCourses digest client a !! i = Some course
         /\ dom course = ({[ "title"; "sub_title"; "banner_image_url"; "link" ]} : gset string)
         /\ course !! "title" = Some (prop post "title")
         /\ course !! "sub_title" = Some (prop post "sub_title")
         /\ course !! "banner_image_url" = Some (prop post "thumb_image_url")
         /\ course !! "link" = Some (prop post "link").
Proof.
  intros posts.
  assert (getFeaturedCourses digest client a = course_of_post <$> posts) as Heq by done.
  split; [done |]. rewrite Heq. split; [apply length_fmap |].
  intros i post Hi. exists (course_of_post post).
  split; [by rewrite list_lookup_fmap, Hi |].
  unfold course_of_post. split; [|by repeat split].
  rewrite !dom_insert_L, dom_empty_L. set_solver.
Qed.

(** X14: [getPackageBottles] asks for the package under the bottles address
    with the name as it is, slashes included, and sends no header at all,
    whatever the session. *)
Theorem getPackageBottles_unsigned (packageName : string) :
  clean_path packageName ->
  req_uri (getPackageBottles_request packageName)
  = "https://app.tea.xyz/api/bottles/" +:+ packageName
  /\ req_headers (getPackageBottles_request packageName) !! "Authorization" = None.
Proof.
  intros [Hfront Hend]. split; [|done].
  unfold getPackageBottles_request, join. simpl.
  by rewrite drop_leading_slash_none, drop_trailing_slash_none.
Qed.

Lemma getPackageBottles_unsigned_witness :
  clean_path "gnu.org/wget"
  /\ req_uri (getPackageBottles_request "gnu.org/wget")
     = "https://app.tea.xyz/api/bottles/" +:+ "gnu.org/wget"
  /\ req_headers (getPackageBottles_request "gnu.org/wget") !! "Authorization" = None.
Proof.
  assert (clean_path "gnu.org/wget") as Hclean.
  { split.
    - intros rest H. discriminate H.
    - intros front H. pose proof (f_equal drop_trailing_slash H) as Hfront.
      rewrite drop_trailing_slash_added in Hfront. subst front.
      vm_compute in H. discriminate H. }
  split; [exact Hclean |].
  exact (getPackageBottles_unsigned "gnu.org/wget" Hclean).
Defined.

(** X15: in every entry of [getPackages] the two added properties agree:
    either the state is AVAILABLE and the installed version is the empty
    string, or the state is INSTALLED and the installed version is the
    version of an installed package with the entry's full name. *)
Theorem getPackages_fields_agree (digest : string -> string -> string)
    (client : request -> list obj) (a : ambient) (installedPackages : list obj) :
  Forall (fun entry =>
            (entry !! "state" = Some (VEnum AVAILABLE)
             /\ entry !! "installed_version" = Some (VStr ""))
            \/ (entry !! "state" = Some (VEnum INSTALLED)
                /\ exists p, p ∈ installedPackages
                     /\ prop p "full_name" = prop entry "full_name"
                     /\ entry !! "installed_version" = Some (prop p "version")))
    (getPackages digest client a installedPackages).
Proof.
  unfold getPackages. apply Forall_fmap, Forall_forall. intros pkg _. simpl.
  unfold with_install_state.
  destruct (List.find _ installedPackages) as [p|] eqn:Hfind.
  - right. rewrite lookup_insert_ne by done. rewrite !lookup_insert_eq.
    split; [done |]. exists p.
    apply find_some in Hfind as [Hin Heq].
    apply bool_decide_eq_true_1 in Heq.
    split; [by apply list_elem_of_In |]. split; [|done].
    unfold prop at 2. by rewrite !lookup_insert_ne.
  - left. rewrite lookup_insert_ne by done. by rewrite !lookup_insert_eq.
Qed.

Lemma ends_with_slash_app (a d front : string) :
  d <> "" -> a +:+ d = front +:+ "/" -> exists front', d = front' +:+ "/".
Proof.
  intros Hd. revert front. induction a as [|c a IH]; intros front H.
  - by exists front.
  - rewrite append_cons in H. destruct front as [|c' front].
    + injection H as _ H. destruct a; [by destruct Hd | discriminate H].
    + rewrite append_cons in H. injection H as _ H. by apply (IH front).
Qed.

(** X23: [getDeviceAuth] asks for [<base>/auth/device/<id>] with an empty
    query, for every device id that is not empty and does not end in a
    slash. *)
Theorem getDeviceAuth_request (digest : string -> string -> string)
    (client : request -> obj) (a : ambient) (deviceId : string) :
  deviceId <> "" -> (forall front, deviceId <> front +:+ "/") ->
  exists r,
    getDeviceAuth digest client a deviceId = client r
    /\ req_uri r = apiBaseUrl +:+ "/auth/device/" +:+ deviceId
    /\ req_query r = ∅.
Proof.
  intros Hne Hend. eexists. split; [reflexivity |]. split; [|done].
  rewrite get_request_uri. unfold trimmed.
  change (drop_leading_slash ("/auth/device/" +:+ deviceId))
    with ("auth/device/" +:+ deviceId).
  rewrite drop_trailing_slash_none; [done |].
  intros front H. apply ends_with_slash_app in H as [front' H]; [|done].
  by destruct (Hend front').
Qed.

Lemma getDeviceAuth_request_witness :
  let a := {| clock := 1700000000000; salt_chars := "N9qo8uLOickgx2ZMRZoMye";
              current_session := None |} in
  let digest := fun text salt : string => text in
  let client := fun r : request => (∅ : obj) in
  "1a2b-3c4d" <> ""
  /\ (forall front, "1a2b-3c4d" <> front +:+ "/")
  /\ exists r,
       getDeviceAuth digest client a "1a2b-3c4d" = client r
       /\ req_uri r = apiBaseUrl +:+ "/auth/device/" +:+ "1a2b-3c4d"
       /\ req_query r = ∅.
Proof.
  assert (forall front, "1a2b-3c4d" <> front +:+ "/") as Hend.
  { intros front H. pose proof (f_equal drop_trailing_slash H) as Hfront.
    rewrite drop_trailing_slash_added in Hfront. subst front.
    vm_compute in H. discriminate H. }
  assert ("1a2b-3c4d" <> "") as Hne by discriminate.
  split; [exact Hne |]. split; [exact Hend |].
  exact (getDeviceAuth_request (fun text salt : string => text)
           (fun r : request => (∅ : obj))
           {| clock := 1700000000000; salt_chars := "N9qo8uLOickgx2ZMRZoMye";
              current_session := None |}
           "1a2b-3c4d" Hne Hend).
Defined.

(** ** More about the install command *)

Lemma calls_traced_more_turns (ch : child_promise) (ts : list turn) (t : turn)
    (l : list action) :
  calls_traced ch ts l -> calls_traced ch (ts ++ [t]) l.
Proof.
  intros (Hkill & Hresolve & Hreject). repeat split; [done | done |].
  intros r Hr. destruct (Hreject r Hr) as [-> | Hin]; [by left | right].
  apply elem_of_app. by left.
Qed.

Lemma calls_traced_child (ch : child_promise) (ts : list turn) (l : list action) :
  calls_traced ChildPending ts l -> calls_traced ch ts l.
Proof.
  intros (Hkill & Hresolve & Hreject). repeat split; [| |done].
  - intros i Hi. by destruct (Hkill i Hi) as (c & Hc & _).
  - intros v Hv. by destruct (Hresolve v Hv) as (c & Hc & _).
Qed.

Lemma calls_traced_one (ch : child_promise) (ts : list turn) (l : list action)
    (a : action) :
  calls_traced ch ts l ->
  a <> Kill -> (forall v, a <> Resolve v) ->
  (forall r, a = Reject r -> r = PUndefined \/ Emit (Error r) ∈ ts) ->
  calls_traced ch ts (l ++ [a]).
Proof.
  intros (Hkill & Hresolve & Hreject) Ha1 Ha2 Ha3. repeat split.
  - intros i Hi. destruct (decide (i < Datatypes.length l)%nat) as [Hlt|Hge].
    + rewrite lookup_app_l in Hi by done.
      destruct (Hkill i Hi) as (c & Hc & Hnext). exists c. split; [done |].
      by apply lookup_app_l_Some.
    + rewrite lookup_app_r in Hi by lia.
      destruct (i - Datatypes.length l)%nat; [|done]. by injection Hi as ->.
  - intros v Hv. apply elem_of_app in Hv as [Hv | Hv]; [by apply Hresolve |].
    apply list_elem_of_singleton in Hv. by destruct (Ha2 v).
  - intros r Hr. apply elem_of_app in Hr as [Hr | Hr]; [by apply Hreject |].
    apply list_elem_of_singleton in Hr. by apply Ha3.
Qed.

Lemma calls_traced_kill_resolve (c : Child) (ts : list turn) (l : list action) :
  calls_traced (ChildReady c) ts l ->
  calls_traced (ChildReady c) ts (l ++ [Kill; Resolve (pid c)]).
Proof.
  intros (Hkill & Hresolve & Hreject). repeat split.
  - intros i Hi. destruct (decide (i < Datatypes.length l)%nat) as [Hlt|Hge].
    + rewrite lookup_app_l in Hi by done.
      destruct (Hkill i Hi) as (c' & Hc & Hnext). exists c'. split; [done |].
      by apply lookup_app_l_Some.
    + exists c. split; [done |].
      rewrite lookup_app_r in Hi by lia. rewrite lookup_app_r by lia.
      destruct (i - Datatypes.length l)%nat as [|[|k]] eqn:Hk; try done.
      by replace (S i - Datatypes.length l)%nat with 1%nat by lia.
  - intros v Hv. apply elem_of_app in Hv as [Hv | Hv]; [by apply Hresolve |].
    exists c. split; [done |].
    apply elem_of_cons in Hv as [Hv | Hv]; [done |].
    apply list_elem_of_singleton in Hv. by injection Hv.
  - intros r Hr. apply elem_of_app in Hr as [Hr | Hr]; [by apply Hreject |].
    apply elem_of_cons in Hr as [Hr | Hr]; [done |].
    by apply list_elem_of_singleton in Hr.
Qed.

Lemma calls_traced_handleLineOutput (c : Child) (line : payload) (ts : list turn)
    (l : list action) :
  calls_traced (ChildReady c) ts l ->
  calls_traced (ChildReady c) ts (l ++ handleLineOutput c line).
Proof.
  intros Hl. destruct (handleLineOutput_cases c line) as [-> | [-> | ->]].
  - by apply calls_traced_kill_resolve.
  - apply calls_traced_one; try done. intros r [= <-]. by left.
  - by rewrite app_nil_r.
Qed.

Lemma traced_step (ts : list turn) (st : invocation) (t : turn) :
  traced ts st -> traced (ts ++ [t]) (step st t).
Proof.
  intros [Hchild Hcalls].
  assert (forall c, child st = ChildReady c -> SpawnDone c ∈ (ts ++ [t])%list) as Hchild'
    by (intros c Hc; apply elem_of_app; left; by apply Hchild).
  apply (calls_traced_more_turns _ _ t) in Hcalls.
  destruct t as [[line|line|line|line]|c| |]; simpl.
  - by split.
  - by split.
  - split; [done |]. simpl. by apply calls_traced_one.
  - split; [done |]. simpl. apply calls_traced_one; try done.
    apply calls_traced_one; try done.
    intros r [= <-]. right. apply elem_of_app. right. by apply list_elem_of_singleton.
  - unfold settle_child. destruct (child st) eqn:Hc.
    + split; simpl; [|by apply calls_traced_child].
      intros c' [= <-]. apply elem_of_app. right. by apply list_elem_of_singleton.
    + split; by rewrite Hc.
    + split; by rewrite Hc.
  - unfold settle_child. destruct (child st) eqn:Hc.
    + split; simpl; [done | by apply calls_traced_child].
    + split; by rewrite Hc.
    + split; by rewrite Hc.
  - unfold resume. destruct (child st) as [|c|] eqn:Hc, (waiting st) as [|line rest].
    all: try (split; by rewrite Hc).
    + split; simpl; rewrite ?Hc; [done |].
      by apply calls_traced_handleLineOutput.
    + split; simpl; by rewrite ?Hc.
Qed.

Lemma traced_run (full_name : string) (ts : list turn) :
  traced ts (run (installPackageCommand full_name) ts).
Proof.
  induction ts as [|t ts IH] using rev_ind.
  - split; [done |]. repeat split.
    + by intros [|[|i]] Hi.
    + intros v Hv. by apply list_elem_of_singleton in Hv.
    + intros r Hr. by apply list_elem_of_singleton in Hr.
  - rewrite run_app. by apply traced_step.
Qed.

Lemma rejected_call (l : list action) (r : payload) :
  settled_by l = Rejected r -> Reject r ∈ l.
Proof.
  unfold settled_by. induction l as [|a l IH]; simpl; [done |].
  destruct a as [prog args|msg arg|arg| |w|r']; simpl.
  1-4: intros H; right; by apply IH.
  - by rewrite settled_is_final.
  - rewrite settled_is_final by done. intros [= ->]. by left.
Qed.

Lemma child_failed_run (st : invocation) (ts : list turn) :
  child st = ChildFailed -> child (run st ts) = ChildFailed.
Proof.
  revert st. induction ts as [|t ts IH]; intros st Hc; [done |].
  simpl. apply IH. destruct t as [[line|line|line|line]|c| |]; simpl; try done.
  - unfold settle_child. by rewrite Hc.
  - unfold settle_child. by rewrite Hc.
  - unfold resume. rewrite Hc. by destruct (waiting st).
Qed.

(** X16: the value an invocation resolves with is the process id of the
    child that [spawn()] produced in this very run. *)
Theorem resolved_with_child_pid (full_name : string) (ts : list turn) (v : Z) :
  outcome (run (installPackageCommand full_name) ts) = Fulfilled v ->
  exists c,
    SpawnDone c ∈ ts
    /\ child (run (installPackageCommand full_name) ts) = ChildReady c
    /\ pid c = v.
Proof.
  intros Hv.
  destruct (consistent_run full_name ts) as [Hout _ _].
  destruct (traced_run full_name ts) as [Hchild (_ & Hresolve & _)].
  rewrite Hout in Hv. apply fulfilled_first_call in Hv as (i & Hi & _).
  apply list_elem_of_lookup_2 in Hi.
  destruct (Hresolve v Hi) as (c & Hc & Hpid).
  exists c. split; [by apply Hchild | done].
Qed.

Lemma resolved_with_child_pid_witness :
  let ts := [Emit (Stdout "installed: pantry/foo"); SpawnDone {| pid := 7 |}; Resume] in
  outcome (run (installPackageCommand "pantry/foo") ts) = Fulfilled 7
  /\ exists c,
       SpawnDone c ∈ ts
       /\ child (run (installPackageCommand "pantry/foo") ts) = ChildReady c
       /\ pid c = 7.
Proof.
  split; [reflexivity |].
  apply (resolved_with_child_pid "pantry/foo"
           [Emit (Stdout "installed: pantry/foo"); SpawnDone {| pid := 7 |}; Resume] 7).
  reflexivity.
Defined.

(** X17: a rejected invocation was rejected either without a reason (by
    the handler, on exit code 1) or with the payload of an [error] event
    that was delivered. *)
Theorem rejected_reason (full_name : string) (ts : list turn) (r : payload) :
  outcome (run (installPackageCommand full_name) ts) = Rejected r ->
  r = PUndefined \/ Emit (Error r) ∈ ts.
Proof.
  intros Hr.
  destruct (consistent_run full_name ts) as [Hout _ _].
  destruct (traced_run full_name ts) as [_ (_ & _ & Hreject)].
  rewrite Hout in Hr. by apply Hreject, rejected_call.
Qed.

Lemma rejected_reason_witness :
  let ts := [SpawnDone {| pid := 7 |}; Emit (Error (PLine "broken pipe"))] in
  outcome (run (installPackageCommand "pantry/bar") ts) = Rejected (PLine "broken pipe")
  /\ (PLine "broken pipe" = PUndefined \/ Emit (Error (PLine "broken pipe")) ∈ ts).
Proof.
  split; [reflexivity |].
  apply (rejected_reason "pantry/bar"
           [SpawnDone {| pid := 7 |}; Emit (Error (PLine "broken pipe"))]
           (PLine "broken pipe")).
  reflexivity.
Defined.

(** X18: [kill] is never called on its own: every call of [kill] is
    followed at once by [resolve] with the process id of the spawned child. *)
Theorem kill_is_followed_by_resolve (full_name : string) (ts : list turn) (i : nat) :
  calls (run (installPackageCommand full_name) ts) !! i = Some Kill ->
  exists c,
    SpawnDone c ∈ ts
    /\ calls (run (installPackageCommand full_name) ts) !! S i = Some (Resolve (pid c)).
Proof.
  intros Hi.
  destruct (traced_run full_name ts) as [Hchild (Hkill & _ & _)].
  destruct (Hkill i Hi) as (c & Hc & Hnext).
  exists c. split; [by apply Hchild | done].
Qed.

Lemma kill_is_followed_by_resolve_witness :
  let ts := [SpawnDone {| pid := 7 |}; Emit (Error PNull);
             Emit (Close (PTerminated (Some 0) None)); Resume; Resume] in
  calls (run (installPackageCommand "pantry/foo") ts) !! 4%nat = Some Kill
  /\ exists c,
       SpawnDone c ∈ ts
       /\ calls (run (installPackageCommand "pantry/foo") ts) !! 5%nat
          = Some (Resolve (pid c)).
Proof.
  split; [reflexivity |].
  apply (kill_is_followed_by_resolve "pantry/foo"
           [SpawnDone {| pid := 7 |}; Emit (Error PNull);
            Emit (Close (PTerminated (Some 0) None)); Resume; Resume] 4).
  reflexivity.
Defined.

Lemma not_contains_installed_empty : ~ contains "installed:" "".
Proof. intros H. apply includes_contains in H. discriminate H. Qed.

Lemma quiet_handleLineOutput (c : Child) (line : payload) :
  quiet_line line -> handleLineOutput c line = [].
Proof.
  destruct line as [| |s|code signal]; simpl; try done.
  - intros Hs. unfold handleLineOutput. simpl.
    destruct (includes "installed:" s) eqn:E; [|done].
    by apply includes_contains in E.
  - intros [H0 H1]. unfold handleLineOutput, strict_eq. simpl.
    destruct code as [n|]; simpl; [|done].
    rewrite !bool_decide_eq_false_2; [done | |]; intros [= ->]; done.
Qed.

Lemma quiet_or_empty (p : payload) : quiet_line p -> quiet_line (or_empty p).
Proof.
  destruct p as [| |[|ch s]|code signal]; simpl; try done;
    intros _; apply not_contains_installed_empty.
Qed.

(** What a run without qualifying events keeps: a pending promise, no
    qualifying line among the suspended handlers, and no call of [kill]. *)
Lemma quiet_step (st : invocation) (t : turn) :
  quiet_turn t ->
  outcome st = Pending /\ Forall quiet_line (waiting st) /\ Kill ∉ calls st ->
  outcome (step st t) = Pending
  /\ Forall quiet_line (waiting (step st t))
  /\ Kill ∉ calls (step st t).
Proof.
  intros Ht (Hp & Hw & Hk).
  assert (forall msg arg, Kill ∉ (calls st ++ [ConsoleLog msg arg])%list) as Hlog.
  { intros msg arg H. apply elem_of_app in H as [H | H]; [done |].
    by apply list_elem_of_singleton in H. }
  destruct t as [[line|line|line|line]|c| |]; simpl in *.
  - repeat split; try done. apply Forall_app. split; [done |]. by apply Forall_singleton.
  - repeat split; try done. apply Forall_app. split; [done |]. by apply Forall_singleton.
  - repeat split; [by rewrite Hp | | done].
    apply Forall_app. split; [done |]. by apply Forall_singleton, quiet_or_empty.
  - done.
  - unfold settle_child. by destruct (child st).
  - unfold settle_child. by destruct (child st).
  - unfold resume.
    destruct (child st) as [|c|], (waiting st) as [|line rest] eqn:Hwait.
    all: try (repeat split; rewrite ?Hwait; done).
    + apply Forall_cons in Hw as [Hline Hrest]. simpl.
      rewrite (quiet_handleLineOutput c line Hline). simpl.
      by rewrite app_nil_r.
    + apply Forall_cons in Hw as [Hline Hrest]. done.
Qed.

(** X19: there is no timeout: while no event qualifies (no line with
    "installed:", no completion with code 0 or 1, no [error] event), the
    invocation stays pending and the child is not killed, however many
    events arrive. *)
Theorem quiet_run_keeps_waiting (full_name : string) (ts : list turn) :
  Forall quiet_turn ts ->
  outcome (run (installPackageCommand full_name) ts) = Pending
  /\ Kill ∉ calls (run (installPackageCommand full_name) ts).
Proof.
  intros Hts.
  assert (forall st,
            outcome st = Pending /\ Forall quiet_line (waiting st) /\ Kill ∉ calls st ->
            outcome (run st ts) = Pending /\ Kill ∉ calls (run st ts)) as Hrun.
  { induction Hts as [|t ts Ht Hts IH]; intros st Hst; [by destruct Hst as (? & ? & ?) |].
    simpl. by apply IH, quiet_step. }
  apply Hrun. repeat split; [done |].
  intros H. by apply list_elem_of_singleton in H.
Qed.

Lemma quiet_run_keeps_waiting_witness :
  let ts := [SpawnDone {| pid := 7 |}; Emit (Stdout "downloading: pkg@1.0"); Resume;
             Emit (Close (PTerminated (Some 2) None)); Resume; Emit (Close PNull)] in
  Forall quiet_turn ts
  /\ outcome (run (installPackageCommand "pantry/foo") ts) = Pending
  /\ Kill ∉ calls (run (installPackageCommand "pantry/foo") ts).
Proof.
  assert (Forall quiet_turn
            [SpawnDone {| pid := 7 |}; Emit (Stdout "downloading: pkg@1.0"); Resume;
             Emit (Close (PTerminated (Some 2) None)); Resume; Emit (Close PNull)])
    as Hquiet.
  { repeat constructor; simpl; try done.
    intros H. apply includes_contains in H. discriminate H. }
  split; [exact Hquiet |].
  exact (quiet_run_keeps_waiting "pantry/foo" _ Hquiet).
Defined.

Lemma spawn_rejected_keeps_waiting_witness :
  let ts := [Emit (Stdout "installed: pantry/foo"); Resume;
             Emit (Close (PTerminated (Some 1) None)); Resume] in
  (forall p, Emit (Error p) ∉ ts)
  /\ outcome (run (installPackageCommand "pantry/foo") (SpawnFailed :: ts)) = Pending.
Proof.
  assert (forall p, Emit (Error p) ∉
            [Emit (Stdout "installed: pantry/foo"); Resume;
             Emit (Close (PTerminated (Some 1) None)); Resume]) as Hts.
  { intros p H.
    repeat (apply elem_of_cons in H as [H|H]; [discriminate H |]).
    by apply elem_of_nil in H. }
  split; [exact Hts |].
  exact (spawn_rejected_keeps_waiting "pantry/foo" _ Hts).
Defined.

(** X21: when [spawn()] fails, the invocation never resolves with success
    and never calls [kill], whatever events are delivered afterwards. *)
Theorem spawn_rejected_never_succeeds (full_name : string) (ts : list turn) :
  (Kill ∉ calls (run (installPackageCommand full_name) (SpawnFailed :: ts)))
  /\ (forall v,
        outcome (run (installPackageCommand full_name) (SpawnFailed :: ts))
        <> Fulfilled v).
Proof.
  destruct (consistent_run full_name (SpawnFailed :: ts)) as [Hout _ _].
  destruct (traced_run full_name (SpawnFailed :: ts)) as [_ (Hkill & Hresolve & _)].
  assert (child (run (installPackageCommand full_name) (SpawnFailed :: ts)) = ChildFailed)
    as Hc
    by (by apply (child_failed_run (step (installPackageCommand full_name) SpawnFailed))).
  rewrite Hc in Hkill, Hresolve. split.
  - intros H. apply list_elem_of_lookup in H as [i Hi].
    by destruct (Hkill i Hi) as (c & Hready & _).
  - intros v Hv. rewrite Hout in Hv.
    apply fulfilled_first_call in Hv as (i & Hi & _).
    apply list_elem_of_lookup_2 in Hi.
    by destruct (Hresolve v Hi) as (c & Hready & _).
Qed.

Lemma settle_child_emit (r : child_promise) (e : event) (st : invocation) :
  step (settle_child r st) (Emit e) = settle_child r (step st (Emit e)).
Proof.
  unfold settle_child. destruct e as [line|line|line|line]; simpl;
    by destruct (child st).
Qed.

Lemma settle_child_first (r : child_promise) (st : invocation) (ts : list turn) :
  Forall is_emit ts ->
  run (settle_child r st) ts = settle_child r (run st ts).
Proof.
  intros Hts. revert st.
  induction Hts as [|t ts Ht Hts IH]; intros st; [done |].
  destruct t as [e|c| |]; try done.
  change (run (step (settle_child r st) (Emit e)) ts
          = settle_child r (run (step st (Emit e)) ts)).
  by rewrite settle_child_emit, IH.
Qed.

(** X22: events that arrive before [spawn()] has produced the child are
    not lost: their handlers wait at [await child] and are resumed in the
    order of arrival, so the run ends as if the child had been there
    before those events. *)
Theorem early_events_are_kept (full_name : string) (early later : list turn)
    (c : Child) :
  Forall is_emit early ->
  run (installPackageCommand full_name) (early ++ SpawnDone c :: later)
  = run (installPackageCommand full_name) (SpawnDone c :: early ++ later).
Proof.
  intros Hearly.
  rewrite run_app.
  change (run ?st (SpawnDone c :: ?l)) with (run (settle_child (ChildReady c) st) l).
  rewrite run_app. by rewrite (settle_child_first _ _ early Hearly).
Qed.

Lemma early_events_are_kept_witness :
  let early := [Emit (Stdout "installed: pantry/foo"); Emit (Stderr "warning")] in
  let later := [Resume; Resume] in
  Forall is_emit early
  /\ run (installPackageCommand "pantry/foo") (early ++ SpawnDone {| pid := 7 |} :: later)
     = run (installPackageCommand "pantry/foo") (SpawnDone {| pid := 7 |} :: early ++ later).
Proof.
  assert (Forall is_emit [Emit (Stdout "installed: pantry/foo"); Emit (Stderr "warning")])
    as Hearly by (repeat constructor).
  split; [exact Hearly |].
  exact (early_events_are_kept "pantry/foo" _ [Resume; Resume] {| pid := 7 |} Hearly).
Defined.
